(** * json-templates: a shallow embedding of [src/index.js]

    The first part follows the source file top to bottom: the JavaScript
    string primitives the code calls, the placeholder tokenizer (the regular
    expression of [parseString]), [Parameter], the values and their
    conversions, [Template], the assignment [newObject[key] = value], then
    [parseString], [parseObject], [parseArray] and [parse].  The second part
    holds the facts about these definitions, the third the claims of the
    specification, one theorem each, and the last some further properties.

    Modelling conventions.
    - A string is a [string]: a sequence of code units below 256.
    - A number is an integer [Z].
    - An object is plain (see [value]); a function of the context returns a
      fixed value or throws, and changes nothing.
    - A call that may throw returns an [outcome]; the error is kept.  A run
      that leaves what a [value] can say ends in [Unmodelled].
    - [evalDefaults] is a boolean.
    - The three packages the source requires ([object-path], [dedupe],
      [notevil]) are not part of the repository.  [objectPath.get] and
      [safeEval] are the fields of the class [Env], and every general
      theorem holds for every [Env]; [dedupe] is written out from its
      contract.  The examples are evaluated in the environment [Packages.env]. *)

From Stdlib Require Import String Ascii List ZArith Bool Arith Lia DecimalString.
Import ListNotations.
Set Warnings "-register-all".
Open Scope string_scope.

(** ** JavaScript string primitives *)

Module JsString.

(** White space and line terminators, as [String.prototype.trim] and the
    regular expression class [\s] read them, among the code units below 256:
    TAB, LF, VT, FF, CR, SPACE and NBSP. *)
Definition is_space (c : ascii) : bool :=
  existsb (Nat.eqb (nat_of_ascii c)) [9; 10; 11; 12; 13; 32; 160].

Fixpoint trimStart (s : string) : string :=
  match s with
  | EmptyString => EmptyString
  | String c r => if is_space c then trimStart r else s
  end.

Fixpoint trimEnd (s : string) : string :=
  match s with
  | EmptyString => EmptyString
  | String c r =>
      match trimEnd r with
      | EmptyString => if is_space c then EmptyString else String c EmptyString
      | r' => String c r'
      end
  end.

(** [s.trim()] *)
Definition trim (s : string) : string := trimEnd (trimStart s).

Fixpoint drop (n : nat) (s : string) : string :=
  match n, s with
  | O, _ => s
  | S n', String _ r => drop n' r
  | S _, EmptyString => EmptyString
  end.

Fixpoint take (n : nat) (s : string) : string :=
  match n, s with
  | S n', String c r => String c (take n' r)
  | _, _ => EmptyString
  end.

(** [s.substr(start, len)] for a [start] that is not negative; a [len] that
    JavaScript would see negative is 0 here and gives the empty string there. *)
Definition substr (start len : nat) (s : string) : string := take len (drop start s).

(** [s.substr(start)] *)
Definition substr_from (start : nat) (s : string) : string := drop start s.

(** [s.startsWith(p)] *)
Fixpoint startsWith (p s : string) : bool :=
  match p, s with
  | EmptyString, _ => true
  | String a p', String b s' => Ascii.eqb a b && startsWith p' s'
  | String _ _, EmptyString => false
  end.

(** [s.endsWith(p)] *)
Definition endsWith (p s : string) : bool :=
  Nat.leb (String.length p) (String.length s)
  && String.eqb (drop (String.length s - String.length p) s) p.

(** [s.indexOf(p)]: the first index at which [p] occurs, [None] for -1. *)
Fixpoint indexOf (p s : string) : option nat :=
  if startsWith p s then Some 0
  else match s with
       | EmptyString => None
       | String _ r => option_map S (indexOf p r)
       end.

(** [GetSubstitution] of ECMAScript for a string pattern (no captures):
    in the replacement text, [$$] is a dollar, [$&] the matched text,
    [$`] the text before the match and [$'] the text after it; every other
    character, a dollar included, stands for itself. *)
Fixpoint GetSubstitution (matched before after repl : string) : string :=
  match repl with
  | EmptyString => EmptyString
  | String c r =>
      if Ascii.eqb c "$" then
        match r with
        | String d r' =>
            if Ascii.eqb d "$" then String "$" (GetSubstitution matched before after r')
            else if Ascii.eqb d "&" then matched ++ GetSubstitution matched before after r'
            else if Ascii.eqb d "`" then before ++ GetSubstitution matched before after r'
            else if Ascii.eqb d "'" then after ++ GetSubstitution matched before after r'
            else String c (GetSubstitution matched before after r)
        | EmptyString => String c EmptyString
        end
      else String c (GetSubstitution matched before after r)
  end.

(** [s.replace(pat, repl)] for a string [pat] and a string [repl]: only the
    first occurrence of [pat] is replaced. *)
Definition replace (pat repl s : string) : string :=
  match indexOf pat s with
  | None => s
  | Some i =>
      let before := take i s in
      let after := drop (i + String.length pat) s in
      before ++ GetSubstitution pat before after repl ++ after
  end.

(** No occurrence of the character [c] in [s]. *)
Fixpoint char_free (c : ascii) (s : string) : bool :=
  match s with
  | EmptyString => true
  | String d r => negb (Ascii.eqb d c) && char_free c r
  end.

End JsString.

(** ** The placeholder tokenizer

    The regular expression of [parseString]: two opening braces, the group
    [(\w|:|[...])] repeated lazily at least once, two closing braces, with the
    global flag.  In the bracket class the sequence [\s-+] is no range (its
    left end is a class escape): it stands for [\s], [-] and [+]. *)

Module Regex.
Import JsString.

(** [\w] *)
Definition word_char (c : ascii) : bool :=
  let n := nat_of_ascii c in
  (Nat.leb 48 n && Nat.leb n 57) || (Nat.leb 65 n && Nat.leb n 90)
  || (Nat.leb 97 n && Nat.leb n 122) || Nat.eqb n 95.

(** The bracket class: braces, the double quote (34), square brackets, [\s],
    and the characters [- + . , @ / ( ) ? = * _ $]. *)
Definition class_char (c : ascii) : bool :=
  is_space c
  || existsb (Ascii.eqb c)
       ["{"; "}"; ascii_of_nat 34; "["; "]"; "-"; "+"; "."; ","; "@"; "/";
        "("; ")"; "?"; "="; "*"; "_"; "$"]%char.

(** One iteration of the group [(\w|:|[...])]. *)
Definition group_char (c : ascii) : bool :=
  word_char c || Ascii.eqb c ":" || class_char c.

(** The lazy quantifier, after the first iteration of the group: stop at the
    first place where [}}] follows, otherwise take one more character of the
    group.  The result is the length of what is matched from here on, the
    closing braces included. *)
Fixpoint lazy_tail (s : string) : option nat :=
  if startsWith "}}" s then Some 2
  else match s with
       | EmptyString => None
       | String c r => if group_char c then option_map S (lazy_tail r) else None
       end.

(** The length of the match of the whole expression at the start of [s]. *)
Definition match_at (s : string) : option nat :=
  if startsWith "{{" s then
    match drop 2 s with
    | EmptyString => None
    | String c r => if group_char c then option_map (fun n => 3 + n) (lazy_tail r) else None
    end
  else None.

(** [regex.exec(s)] from [lastIndex] 0: index and length of the first match. *)
Fixpoint exec (s : string) : option (nat * nat) :=
  match match_at s with
  | Some n => Some (0, n)
  | None =>
      match s with
      | EmptyString => None
      | String _ r => option_map (fun p => (S (fst p), snd p)) (exec r)
      end
  end.

(** [regex.test(s)].  The expression is global and shared by every call of
    [parseString], so [test] reads and writes its [lastIndex]; [lastIndex] is
    0 whenever [parseString] is entered: a failed [test] resets it, and
    after a successful one [str.match(regex)] sets it to 0 before scanning
    and leaves it at 0. *)
Definition test (s : string) : bool :=
  match exec s with Some _ => true | None => false end.

(** The matches of a global scan, leftmost first and not overlapping.  [skip]
    counts the characters of the running match still to step over. *)
Fixpoint scan (skip : nat) (s : string) : list string :=
  match s with
  | EmptyString => []
  | String _ r =>
      match skip with
      | S k => scan k r
      | O =>
          match match_at s with
          | Some n => take n s :: scan (n - 1) r
          | None => scan 0 r
          end
      end
  end.

(** [str.match(regex)], the empty list standing for [null]. *)
Definition str_match (s : string) : list string := scan 0 s.

End Regex.

(** ** Parameter *)

Record Parameter_t : Type := mkParameter {
  key : string;
  defaultValue : option string  (* [None]: the property is absent *)
}.

(** [Parameter(match)]; the name is primed because [Parameter] is a keyword. *)
Definition Parameter' (m : string) : Parameter_t :=
  let matchValue := JsString.trim (JsString.substr 2 (String.length m - 4) m) in
  match JsString.indexOf ":" matchValue with
  | Some i =>
      {| key := JsString.substr 0 i matchValue;
         defaultValue := Some (JsString.substr_from (i + 1) matchValue) |}
  | None => {| key := matchValue; defaultValue := None |}
  end.

(** ** Values, and the outcome of a call *)

(** A JavaScript value.  An object is plain: its own enumerable properties in
    the order [Object.keys] lists them, its prototype [Object.prototype]; an
    array has its elements and nothing else.  A function is a callable whose
    call returns a fixed value ([Some]) or throws ([None]) whatever it is
    applied to, and which changes nothing. *)
Inductive value : Type :=
| VUndefined
| VNull
| VBool (b : bool)
| VNumber (n : Z)
| VString (s : string)
| VDate (time : Z)
| VArray (elements : list value)
| VObject (props : list (string * value))
| VFunction (body : option value).

Inductive error : Type :=
| TypeError          (* raised by the language: a method of [null], a call of a non-function *)
| Thrown.            (* raised by a function of the context *)

(** The outcome of a call.  [Unmodelled] marks the three places where the run
    leaves what a [value] can say: the text of a date or of a function, the
    text of a number of magnitude 2^53 or more, and an object whose
    prototype is replaced. *)
Inductive outcome (A : Type) : Type :=
| Ok (a : A)
| Throw (e : error)
| Unmodelled.
Arguments Ok {A} a.
Arguments Throw {A} e.
Arguments Unmodelled {A}.

Definition result : Type := outcome value.

Definition bind {A B : Type} (m : outcome A) (f : A -> outcome B) : outcome B :=
  match m with
  | Ok a => f a
  | Throw e => Throw e
  | Unmodelled => Unmodelled
  end.

Notation "x <- m ;; k" := (bind m (fun x => k))
  (at level 61, m at next level, right associativity).

(** [typeof v] *)
Inductive typeof_t : Type :=
| TyUndefined | TyObject | TyBoolean | TyNumber | TyString | TyFunction.

Definition typeof (v : value) : typeof_t :=
  match v with
  | VUndefined => TyUndefined
  | VNull | VDate _ | VArray _ | VObject _ => TyObject
  | VBool _ => TyBoolean
  | VNumber _ => TyNumber
  | VString _ => TyString
  | VFunction _ => TyFunction
  end.

Definition typeof_eqb (a b : typeof_t) : bool :=
  match a, b with
  | TyUndefined, TyUndefined | TyObject, TyObject | TyBoolean, TyBoolean
  | TyNumber, TyNumber | TyString, TyString | TyFunction, TyFunction => true
  | _, _ => false
  end.

(** [type(value)]: [typeof] refined for arrays, dates and [null]. *)
Inductive type_t : Type :=
| TArray | TDate | TNull | TTypeof (t : typeof_t).

Definition type (v : value) : type_t :=
  match v with
  | VArray _ => TArray
  | VDate _ => TDate
  | VNull => TNull
  | _ => TTypeof (typeof v)
  end.

(** [v === undefined || v == null] *)
Definition nullish (v : value) : bool :=
  match v with VUndefined | VNull => true | _ => false end.

(** The truth value of [v] in a condition. *)
Definition truthy (v : value) : bool :=
  match v with
  | VUndefined | VNull => false
  | VBool b => b
  | VNumber n => negb (Z.eqb n 0)
  | VString s => negb (String.eqb s "")
  | _ => true
  end.

(** [f()] *)
Definition call (body : option value) : result :=
  match body with
  | Some v => Ok v
  | None => Throw Thrown
  end.

(** [obj[k]] restricted to the own properties of a plain object. *)
Fixpoint own (k : string) (props : list (string * value)) : option value :=
  match props with
  | [] => None
  | (k', v) :: r => if String.eqb k k' then Some v else own k r
  end.

(** ** Conversion to a string *)

Definition string_of_Z (n : Z) : string := NilZero.string_of_int (Z.to_int n).

(** [ToString] of a primitive.  A number is an integer here; below 2^53 in
    absolute value every integer is a double of its own and JavaScript prints
    its decimal digits.  From 2^53 on the text is the shortest one that reads
    back as the same double, which is not modelled. *)
Definition prim_to_string (v : value) : outcome string :=
  match v with
  | VUndefined => Ok "undefined"
  | VNull => Ok "null"
  | VBool true => Ok "true"
  | VBool false => Ok "false"
  | VNumber n =>
      if Z.ltb (Z.abs n) (2 ^ 53) then Ok (string_of_Z n) else Unmodelled
  | VString s => Ok s
  | _ => Unmodelled
  end.

(** [OrdinaryToPrimitive(o, string)] followed by [ToString], for a plain
    object: the method [toString], then [valueOf], each the object's own
    property or else the one of [Object.prototype] (which answers
    [[object Object]], respectively the object itself). *)
Definition object_to_string (props : list (string * value)) : outcome string :=
  let by_valueOf :=
    match own "valueOf" props with
    | Some (VFunction body) =>
        r <- call body ;;
        if typeof_eqb (typeof r) TyObject && negb (nullish r)
           || typeof_eqb (typeof r) TyFunction
        then Throw TypeError else prim_to_string r
    | _ => Throw TypeError
    end in
  match own "toString" props with
  | None => Ok "[object Object]"
  | Some (VFunction body) =>
      r <- call body ;;
      if typeof_eqb (typeof r) TyObject && negb (nullish r)
         || typeof_eqb (typeof r) TyFunction
      then by_valueOf else prim_to_string r
  | Some _ => by_valueOf
  end.

(** [ToString(v)] (and [ToPropertyKey(v)], there being no symbols): an array
    joins the texts of its elements with commas, [null] and [undefined]
    elements being empty. *)
Fixpoint ToString (v : value) : outcome string :=
  match v with
  | VArray xs =>
      (fix join (l : list value) : outcome string :=
         match l with
         | [] => Ok ""
         | x :: r =>
             a <- (if nullish x then Ok "" else ToString x) ;;
             match r with
             | [] => Ok a
             | _ => b <- join r ;; Ok (a ++ "," ++ b)
             end
         end) xs
  | VObject props => object_to_string props
  | _ => prim_to_string v
  end.

(** ** The packages the source requires *)

(** [objectPath.get] and [safeEval], as the source calls them.  Both are taken
    to be functions of their arguments that change nothing.  [safeEval] is
    given the [defaultValue] of the parameter ([None] when the property is
    absent) and the context; [None] stands for a thrown error. *)
Class Env : Type := {
  get : value -> string -> value;
  safeEval : option string -> value -> option value
}.

(** The key [k] is among the keys [seen]. *)
Definition seen_in (k : string) (seen : list string) : bool := existsb (String.eqb k) seen.

(** Modelled from the spec: [dedupe(list, hasher)] is not under src/; by its
    contract it returns the first element observed for each distinct result
    of [hasher], in the order of the input.  [dedupe_from] is the scan, with
    the results of [hasher] seen so far. *)
Fixpoint dedupe_from {A : Type} (hasher : A -> string) (seen : list string) (l : list A) : list A :=
  match l with
  | [] => []
  | x :: r =>
      if seen_in (hasher x) seen then dedupe_from hasher seen r
      else x :: dedupe_from hasher (hasher x :: seen) r
  end.

Definition dedupe {A : Type} (l : list A) (hasher : A -> string) : list A :=
  dedupe_from hasher [] l.

(** ** Template *)

(** A template: the function and its [parameters] property. *)
Record Template_t : Type := mkTemplate {
  fn : value -> result;
  parameters : list Parameter_t
}.

(** [Template(fn, parameters)] *)
Definition Template (f : value -> result) (ps : list Parameter_t) : Template_t :=
  {| fn := f; parameters := dedupe ps key |}.

(** [array.reduce(callback, initial)] for a callback that may throw. *)
Fixpoint reduce {A B : Type} (callback : B -> A -> outcome B) (l : list A) (acc : B) : outcome B :=
  match l with
  | [] => Ok acc
  | x :: r => a <- callback acc x ;; reduce callback r a
  end.

(** ** Assignment to a property of a fresh object *)

Module Props.

Definition is_digit (c : ascii) : bool :=
  Nat.leb 48 (nat_of_ascii c) && Nat.leb (nat_of_ascii c) 57.

Fixpoint digits (s : string) (acc : N) : option N :=
  match s with
  | EmptyString => Some acc
  | String c r =>
      if is_digit c then digits r (10 * acc + N.of_nat (nat_of_ascii c - 48)) else None
  end.

(** The array index a property name stands for: the canonical decimal text of
    an integer from 0 to 2^32 - 2. *)
Definition array_index (k : string) : option N :=
  match k with
  | EmptyString => None
  | String c r =>
      if Ascii.eqb c "0" then
        match r with EmptyString => Some 0%N | _ => None end
      else
        match digits k 0 with
        | Some n => if N.leb n 4294967294 then Some n else None
        | None => None
        end
  end.

Fixpoint update (k : string) (v : value) (props : list (string * value)) : list (string * value) :=
  match props with
  | [] => []
  | (k', v') :: r => if String.eqb k k' then (k', v) :: r else (k', v') :: update k v r
  end.

(** A new property whose name is the array index [n]: array indices come
    first in the order of the keys, ascending. *)
Fixpoint insert_index (n : N) (k : string) (v : value) (props : list (string * value))
  : list (string * value) :=
  match props with
  | [] => [(k, v)]
  | (k', v') :: r =>
      match array_index k' with
      | Some n' => if N.ltb n' n then (k', v') :: insert_index n k v r else (k, v) :: props
      | None => (k, v) :: props
      end
  end.

(** A new property: after the others, unless its name is an array index. *)
Definition insert (k : string) (v : value) (props : list (string * value)) : list (string * value) :=
  match array_index k with
  | Some n => insert_index n k v props
  | None => (props ++ [(k, v)])%list
  end.

(** [newObject[k] = v] on an object whose prototype is [Object.prototype].
    An own property is overwritten where it stands.  The name [__proto__],
    when it is not an own property, reaches the accessor of
    [Object.prototype]: an object or [null] would become the prototype
    (which a [value] cannot record), anything else is ignored; either way no
    own property is created. *)
Definition set (props : list (string * value)) (k : string) (v : value)
  : outcome (list (string * value)) :=
  match own k props with
  | Some _ => Ok (update k v props)
  | None =>
      if String.eqb k "__proto__" then
        match typeof v with
        | TyObject | TyFunction => Unmodelled
        | _ => Ok props
        end
      else Ok (insert k v props)
  end.

(** The order of the keys of an object: array indices first, ascending, then
    the other names as they were created; no name twice. *)
Definition precedes (k k' : string) : bool :=
  match array_index k, array_index k' with
  | Some n, Some n' => N.ltb n n'
  | Some _, None => true
  | None, Some _ => false
  | None, None => negb (String.eqb k k')
  end.

Fixpoint wf_keys (ks : list string) : bool :=
  match ks with
  | [] => true
  | k :: r => forallb (precedes k) r && wf_keys r
  end.

End Props.

(** ** parseString, parseObject, parseArray, parse *)

Section Compile.
Context {E : Env}.

(** Lines 95-106: the value at the path, or else the default. *)
Definition lookup (evalDefaults : bool) (context : value) (parameter : Parameter_t) : value :=
  let value := get context (key parameter) in
  if nullish value then
    let value :=
      match defaultValue parameter with Some d => VString d | None => VUndefined end in
    if evalDefaults then
      match safeEval (defaultValue parameter) context with
      | Some evaluated => evaluated
      | None => value                    (* catch (ex) { //do nothing } *)
      end
    else value
  else value.

(** Lines 108-110: a function is called, with no arguments. *)
Definition invoke (value : value) : result :=
  match value with
  | VFunction body => call body
  | _ => Ok value
  end.

(** [recv.name(...)] for a method [name] of [String.prototype] that no other
    prototype of the language has: on a string the method runs; a plain
    object answers with its own property of that name, when it is a
    function; nothing else has a method of that name. *)
Definition string_method (name : string) (recv : value) (on_string : string -> result) : result :=
  match recv with
  | VString s => on_string s
  | VObject props =>
      match own name props with
      | Some (VFunction body) => call body
      | _ => Throw TypeError
      end
  | _ => Throw TypeError
  end.

(** [s.replace(match, value)]: a function [value] is called for the
    replacement text when [match] occurs; any other value is made a string
    first, in which the dollar patterns are read. *)
Definition String_replace (s pat : string) (value : value) : result :=
  match value with
  | VFunction body =>
      match JsString.indexOf pat s with
      | None => Ok (VString s)
      | Some i =>
          r <- call body ;;
          text <- ToString r ;;
          Ok (VString (JsString.take i s ++ text ++ JsString.drop (i + String.length pat) s))
      end
  | _ =>
      text <- ToString value ;;
      Ok (VString (JsString.replace pat text s))
  end.

(** Lines 112-125, [str] being the accumulator of the fold. *)
Definition splice (n_matches : nat) (str : value) (m : string) (value : value) : result :=
  if typeof_eqb (typeof value) TyObject then Ok value
  else if nullish value then Ok VNull
  else
    whole <-
      (if Nat.eqb n_matches 1 then
         starts <- string_method "startsWith" str
                     (fun s => Ok (VBool (JsString.startsWith "{{" s))) ;;
         if truthy starts then
           string_method "endsWith" str (fun s => Ok (VBool (JsString.endsWith "}}" s)))
         else Ok starts
       else Ok (VBool false)) ;;
    if truthy whole then Ok value
    else string_method "replace" str (fun s => String_replace s m value).

(** The callback of [matches.reduce], lines 93-126; [mp] is [matches[i]] with
    [parameters[i]]. *)
Definition step (evalDefaults : bool) (n_matches : nat) (context : value)
    (str : value) (mp : string * Parameter_t) : result :=
  value <- invoke (lookup evalDefaults context (snd mp)) ;;
  splice n_matches str (fst mp) value.

(** [context || {}] *)
Definition context_or_empty (context : value) : value :=
  if truthy context then context else VObject [].

Definition parseString (str : string) (evalDefaults : bool) : Template_t :=
  if Regex.test str then
    let matches := Regex.str_match str in
    let params := map Parameter' matches in
    Template
      (fun context =>
         reduce (step evalDefaults (List.length matches) (context_or_empty context))
                (combine matches params) (VString str))
      params
  else Template (fun _ => Ok (VString str)) [].

(** The value of a placeholder after default substitution and the call of a
    function: lines 94-110 for the match [m]. *)
Definition resolve (evalDefaults : bool) (context : value) (m : string) : result :=
  invoke (lookup evalDefaults context (Parameter' m)).

(** The fold of [templateFn] over the matches [ms], from the accumulator
    [acc]; [n] is [matches.length]. *)
Definition fold_matches (evalDefaults : bool) (n : nat) (context : value)
    (ms : list string) (acc : value) : result :=
  reduce (step evalDefaults n context) (combine ms (map Parameter' ms)) acc.

(** A scalar that is neither [null] nor [undefined]. *)
Definition scalar (v : value) : bool :=
  match v with VBool _ | VNumber _ | VString _ => true | _ => false end.

(** The callback of [children.reduce], lines 146-149, a child being the pair
    (keyTemplate, valueTemplate): the key template is rendered, then the
    value template, then the key is made a property name and the property is
    assigned. *)
Definition assign_child (context : value) (newObject : list (string * value))
    (child : Template_t * Template_t) : outcome (list (string * value)) :=
  k <- fn (fst child) context ;;
  v <- fn (snd child) context ;;
  name <- ToString k ;;
  Props.set newObject name v.

(** [parseObject], given the children: one pair of templates for each key. *)
Definition objectTemplate (children : list (Template_t * Template_t)) : Template_t :=
  let templateParameters :=
    fold_left
      (fun ps child => (ps ++ parameters (snd child) ++ parameters (fst child))%list)
      children [] in
  let templateFn context :=
    props <- reduce (assign_child context) children [] ;;
    Ok (VObject props) in
  Template templateFn templateParameters.

(** [templates.map(template => template(context))] *)
Fixpoint map_templates (templates : list Template_t) (context : value) : outcome (list value) :=
  match templates with
  | [] => Ok []
  | t :: r => v <- fn t context ;; vs <- map_templates r context ;; Ok (v :: vs)
  end.

(** [parseArray], given the templates of the elements. *)
Definition arrayTemplate (templates : list Template_t) : Template_t :=
  let templateParameters := fold_left (fun ps t => (ps ++ parameters t)%list) templates [] in
  let templateFn context := vs <- map_templates templates context ;; Ok (VArray vs) in
  Template templateFn templateParameters.

(** [parse(value, evalDefaults)]; the pair of a child is (keyTemplate,
    valueTemplate). *)
Fixpoint parse (value : value) (evalDefaults : bool) : Template_t :=
  match type value, value with
  | TTypeof TyString, VString str => parseString str evalDefaults
  | TTypeof TyObject, VObject object =>
      objectTemplate
        (map (fun kv => (parseString (fst kv) evalDefaults, parse (snd kv) evalDefaults))
             object)
  | TArray, VArray array => arrayTemplate (map (fun el => parse el evalDefaults) array)
  | _, _ => Template (fun _ => Ok value) []
  end.

Definition parseObject (object : list (string * value)) (evalDefaults : bool) : Template_t :=
  parse (VObject object) evalDefaults.

Definition parseArray (array : list value) (evalDefaults : bool) : Template_t :=
  parse (VArray array) evalDefaults.

End Compile.

(** ** A concrete environment for the examples *)

Module Packages.

Fixpoint split_path (cur : string) (path : string) : list string :=
  match path with
  | EmptyString => [cur]
  | String c r =>
      if Ascii.eqb c "." || Ascii.eqb c "[" then cur :: split_path EmptyString r
      else if Ascii.eqb c "]" then split_path cur r
      else split_path (cur ++ String c EmptyString) r
  end.

Definition segment (obj : value) (seg : string) : value :=
  match obj with
  | VObject props => match own seg props with Some v => v | None => VUndefined end
  | VArray xs =>
      match Props.array_index seg with
      | Some n => nth (N.to_nat n) xs VUndefined
      | None => VUndefined
      end
  | _ => VUndefined
  end.

(** Modelled from the spec: [objectPath.get(context, path)] is not under
    src/; by its contract the path is a sequence of segments, dotted or
    bracketed, each the name of a property or the index of an element, and
    the lookup is [undefined] as soon as a segment is missing. *)
Definition objectPath_get (context : value) (path : string) : value :=
  fold_left segment (split_path EmptyString path) context.

Fixpoint split_plus (cur : string) (src : string) : list string :=
  match src with
  | EmptyString => [cur]
  | String c r =>
      if Ascii.eqb c "+" then cur :: split_plus EmptyString r
      else split_plus (cur ++ String c EmptyString) r
  end.

Definition literal (s : string) : option Z :=
  match s with
  | EmptyString => None
  | _ => option_map Z.of_N (Props.digits s 0)
  end.

Fixpoint sum (terms : list string) : option Z :=
  match terms with
  | [] => Some 0%Z
  | t :: r =>
      match literal t, sum r with
      | Some a, Some b => Some (a + b)%Z
      | _, _ => None
      end
  end.

(** Modelled from the spec: [safeEval(source, context)] is not under src/;
    by its contract it evaluates an expression and fails on invalid input.
    This one evaluates the sums of decimal literals and fails on everything
    else, an absent source included. *)
Definition sum_eval (source : option string) (context : value) : option value :=
  match source with
  | Some src => option_map VNumber (sum (split_plus EmptyString src))
  | None => None
  end.

Definition env : Env := {| get := objectPath_get; safeEval := sum_eval |}.

(** [parse(template, evalDefaults)(context)] and
    [parse(template, evalDefaults).parameters] in this environment. *)
Definition render (template : value) (evalDefaults : bool) (context : value) : result :=
  fn (@parse env template evalDefaults) context.

Definition parameters_of (template : value) (evalDefaults : bool) : list Parameter_t :=
  parameters (@parse env template evalDefaults).

End Packages.

(** ** Predicates on template values *)

(** No placeholder in any string leaf or object key: the regular expression
    finds no match. *)
Fixpoint placeholder_free (v : value) : bool :=
  match v with
  | VString s => negb (Regex.test s)
  | VArray xs => forallb placeholder_free xs
  | VObject props =>
      forallb (fun kv => negb (Regex.test (fst kv)) && placeholder_free (snd kv)) props
  | _ => true
  end.

(** Every object lists its keys as a JavaScript object does. *)
Fixpoint well_formed (v : value) : bool :=
  match v with
  | VArray xs => forallb well_formed xs
  | VObject props =>
      Props.wf_keys (map fst props) && forallb (fun kv => well_formed (snd kv)) props
  | _ => true
  end.

(** No object has an own property named [__proto__]. *)
Fixpoint proto_free (v : value) : bool :=
  match v with
  | VArray xs => forallb proto_free xs
  | VObject props =>
      forallb (fun kv => negb (String.eqb (fst kv) "__proto__") && proto_free (snd kv)) props
  | _ => true
  end.

(** The parameters in document traversal order, as the specification words
    it: for an object, key by key, the parameters of the value and then those
    of the key; for an array, element by element. *)
Fixpoint traversal_parameters (v : value) : list Parameter_t :=
  match v with
  | VString s => map Parameter' (Regex.str_match s)
  | VArray xs => flat_map traversal_parameters xs
  | VObject props =>
      flat_map
        (fun kv => (traversal_parameters (snd kv)
                    ++ map Parameter' (Regex.str_match (fst kv)))%list)
        props
  | _ => []
  end.

(** ** A scanned text put back together *)

(** Each match followed by the text after it. *)
Fixpoint weave_rest (rest : list (string * string)) : string :=
  match rest with
  | [] => EmptyString
  | (m, after) :: rest' => m ++ after ++ weave_rest rest'
  end.

(** The text before the first match, then each match with the text after
    it. *)
Definition weave (first : string) (rest : list (string * string)) : string :=
  first ++ weave_rest rest.

(** ** Placeholder texts, and texts in which no placeholder starts *)

(** Every character is one the group of the regular expression takes. *)
Fixpoint group_text (s : string) : bool :=
  match s with
  | EmptyString => true
  | String c r => Regex.group_char c && group_text r
  end.

(** The shape of what the regular expression matches. *)
Definition placeholder (m : string) : Prop :=
  exists body, m = ("{{" ++ body ++ "}}")%string
               /\ body <> EmptyString /\ group_text body = true.

(** The expression matches at no position of [a] when [a] is followed by
    [W]. *)
Definition quiet (a W : string) : Prop :=
  forall q, q < String.length a -> Regex.match_at (JsString.drop q (a ++ W)) = None.

Fixpoint quiet_rest (rest : list (string * string)) : Prop :=
  match rest with
  | [] => True
  | (m, a) :: rest' => quiet a (weave_rest rest') /\ quiet_rest rest'
  end.

(** No placeholder text starts inside [X], whatever follows [X]. *)
Definition sealed (X : string) : Prop :=
  forall m, placeholder m ->
  forall Z q, q < String.length X ->
              JsString.startsWith m (JsString.drop q (X ++ Z)) = false.

(** The texts [txt] in the place of the matches. *)
Definition fill (txt : string -> string) (rest : list (string * string))
  : list (string * string) :=
  map (fun ma => (txt (fst ma), snd ma)) rest.

(** ** What the claims say of the placeholders of a string *)

(** The string with every placeholder replaced, in one pass from left to
    right: where the scan finds a match, the text [txt] gives for it stands
    in its place; every other character is kept.  This is the reading of the
    claims, to be compared with the fold of [parseString]; the recursion is
    that of [Regex.scan], [skip] counting the characters of the match just
    replaced. *)
Fixpoint substitute_from (txt : string -> string) (skip : nat) (s : string) : string :=
  match s with
  | EmptyString => EmptyString
  | String c r =>
      match skip with
      | S k => substitute_from txt k r
      | O =>
          match Regex.match_at s with
          | Some n => txt (JsString.take n s) ++ substitute_from txt (n - 1) r
          | None => String c (substitute_from txt 0 r)
          end
      end
  end.

Definition substitute (txt : string -> string) (s : string) : string :=
  substitute_from txt 0 s.

(** The same pass stopped after the first [k] matches: these are replaced,
    the rest of the string is as it was. *)
Fixpoint substitute_upto (txt : string -> string) (k skip : nat) (s : string) : string :=
  match s with
  | EmptyString => EmptyString
  | String c r =>
      match skip with
      | S j => substitute_upto txt k j r
      | O =>
          match k with
          | O => s
          | S k' =>
              match Regex.match_at s with
              | Some n => txt (JsString.take n s) ++ substitute_upto txt k' (n - 1) r
              | None => String c (substitute_upto txt k 0 r)
              end
          end
      end
  end.

(** * Facts about the string primitives *)

Module JsStringFacts.
Import JsString.

Lemma startsWith_take (n : nat) (s : string) : startsWith (take n s) s = true.
Proof.
  revert n; induction s as [|c r IH]; intros [|n]; simpl; trivial.
  now rewrite Ascii.eqb_refl, IH.
Qed.

Lemma indexOf_found_here (p s : string) : startsWith p s = true -> indexOf p s = Some 0.
Proof. intros H; destruct s; simpl; now rewrite H. Qed.


Lemma take_app (x y : string) (n : nat) :
  take (String.length x + n) (x ++ y) = (x ++ take n y)%string.
Proof. induction x as [|c x IH]; simpl; [reflexivity | now rewrite IH]. Qed.

Lemma drop_app (x y : string) (n : nat) :
  drop (String.length x + n) (x ++ y) = drop n y.
Proof. induction x as [|c x IH]; simpl; [reflexivity | exact IH]. Qed.

Lemma append_empty_r (s : string) : (s ++ "")%string = s.
Proof. induction s as [|c s IH]; simpl; [reflexivity | now rewrite IH]. Qed.

Lemma append_assoc (a b c : string) : ((a ++ b) ++ c)%string = (a ++ b ++ c)%string.
Proof. induction a as [|x a IH]; simpl; [reflexivity | now rewrite IH]. Qed.

(** A replacement text without a dollar stands for itself. *)
Lemma GetSubstitution_plain (matched before after repl : string) :
  char_free "$" repl = true -> GetSubstitution matched before after repl = repl.
Proof.
  induction repl as [|c r IH]; simpl; trivial.
  intros H; apply andb_true_iff in H as [Hc Hr].
  apply negb_true_iff in Hc; rewrite Hc.
  now rewrite IH.
Qed.

(** [replace] splices the text in at the first occurrence. *)
Lemma replace_at (pat repl s : string) (i : nat) :
  indexOf pat s = Some i -> char_free "$" repl = true ->
  replace pat repl s = (take i s ++ repl ++ drop (i + String.length pat) s)%string.
Proof.
  intros Hi Hd; unfold replace; rewrite Hi.
  now rewrite GetSubstitution_plain.
Qed.

(** A pattern that starts with [a] is not found inside a text free of [a]. *)
Lemma indexOf_skip (a : ascii) (p x r : string) :
  char_free a x = true ->
  indexOf (String a p) (x ++ r) = option_map (Nat.add (String.length x)) (indexOf (String a p) r).
Proof.
  induction x as [|c x IH]; intros H.
  - cbn [append String.length].
    destruct (indexOf (String a p) r); reflexivity.
  - simpl in H; apply andb_true_iff in H as [Hc Hx].
    apply negb_true_iff in Hc.
    change ((String c x ++ r)%string) with (String c (x ++ r)).
    cbn [indexOf startsWith].
    rewrite Ascii.eqb_sym, Hc; cbn [andb].
    rewrite (IH Hx).
    destruct (indexOf (String a p) r); reflexivity.
Qed.

Lemma trimEnd_head (c : ascii) (r : string) :
  trimEnd (String c r) = EmptyString \/ exists r', trimEnd (String c r) = String c r'.
Proof.
  simpl; destruct (trimEnd r).
  - destruct (is_space c); [now left | right; now eexists].
  - right; now eexists.
Qed.

Lemma trimStart_head (s : string) :
  trimStart s = EmptyString \/ exists c r, trimStart s = String c r /\ is_space c = false.
Proof.
  induction s as [|c r IH]; simpl; [now left|].
  destruct (is_space c) eqn:Hc; [exact IH|].
  right; now exists c, r.
Qed.

(** The trimmed text does not start with white space. *)
Lemma trim_head (s : string) :
  trim s = EmptyString \/ exists c r, trim s = String c r /\ is_space c = false.
Proof.
  unfold trim.
  destruct (trimStart_head s) as [H | (c & r & H & Hc)]; rewrite H.
  - now left.
  - destruct (trimEnd_head c r) as [H' | (r' & H')]; rewrite H'.
    + now left.
    + right; now exists c, r'.
Qed.

Lemma indexOf_char_split (c : ascii) (k d : string) :
  indexOf (String c "") k = None ->
  indexOf (String c "") (k ++ String c d) = Some (String.length k).
Proof.
  induction k as [|a k IH]; simpl.
  - now rewrite Ascii.eqb_refl.
  - destruct (Ascii.eqb c a); simpl; [discriminate|].
    destruct (indexOf (String c "") k) eqn:Hk; simpl; [discriminate|].
    intros _; now rewrite IH.
Qed.

End JsStringFacts.

(** * Facts about the tokenizer *)

Module RegexFacts.
Import JsString Regex JsStringFacts.

(** [regex.test] fails exactly when the global scan finds nothing. *)
Lemma test_false_no_match (s : string) : test s = false -> str_match s = [].
Proof.
  unfold test, str_match.
  induction s as [|c r IH]; simpl; trivial.
  destruct (match_at (String c r)); [discriminate|].
  destruct (exec r); simpl; [discriminate | exact IH].
Qed.

Lemma test_true_some_match (s : string) : test s = true -> str_match s <> [].
Proof.
  unfold test, str_match.
  induction s as [|c r IH]; simpl.
  - unfold match_at; simpl; discriminate.
  - destruct (match_at (String c r)); [discriminate|].
    destruct (exec r); simpl; [auto | discriminate].
Qed.



Lemma length_take (n : nat) (s : string) : n <= String.length s -> String.length (take n s) = n.
Proof.
  revert n; induction s as [|c r IH]; intros [|n]; cbn [take String.length]; intros H;
    try reflexivity; try (exfalso; inversion H; fail).
  f_equal; apply IH; now apply le_S_n.
Qed.

Lemma startsWith_2 (a b : ascii) (s : string) :
  startsWith (String a (String b EmptyString)) s = true ->
  exists r, s = String a (String b r).
Proof.
  destruct s as [|c [|d r]]; cbn [startsWith]; try discriminate.
  - now rewrite andb_false_r.
  - intros H; apply andb_true_iff in H as [Ha H]; apply andb_true_iff in H as [Hb _].
    apply Ascii.eqb_eq in Ha, Hb; subst; now exists r.
Qed.

(** Where the lazy quantifier stops: after at least the two closing braces,
    within the text, the last two characters taken being the braces. *)
Lemma lazy_tail_shape (r : string) (k : nat) :
  lazy_tail r = Some k ->
  2 <= k /\ k <= String.length r /\ drop (k - 2) (take k r) = "}}".
Proof.
  revert k; induction r as [|c r IH]; intros k; cbn [lazy_tail].
  - cbn [startsWith]; discriminate.
  - destruct (startsWith "}}" (String c r)) eqn:Hs.
    + intros [= <-].
      apply startsWith_2 in Hs as [r' Hr]; rewrite Hr.
      cbn [String.length take drop Nat.sub]; repeat split; auto with arith.
    + destruct (group_char c); [|discriminate].
      destruct (lazy_tail r) as [k'|]; [|discriminate].
      intros [= <-].
      destruct (IH k' eq_refl) as (H2 & Hlen & Hend).
      repeat split; [auto with arith | cbn [String.length]; auto with arith |].
      destruct k' as [|[|k2]]; try (exfalso; inversion H2; fail);
        try (exfalso; apply le_S_n in H2; inversion H2; fail).
      cbn [Nat.sub take drop] in *.
      rewrite Nat.sub_0_r in Hend.
      exact Hend.
Qed.

(** A match is a placeholder: two opening braces, something, two closing
    braces. *)
Lemma match_at_shape (s : string) (n : nat) :
  match_at s = Some n ->
  startsWith "{{" (take n s) = true /\ endsWith "}}" (take n s) = true
  /\ 5 <= String.length (take n s).
Proof.
  unfold match_at.
  destruct (startsWith "{{" s) eqn:Hs; [|discriminate].
  apply startsWith_2 in Hs as [r0 ->]; cbn [drop].
  destruct r0 as [|c r]; [discriminate|].
  destruct (group_char c); [|discriminate].
  destruct (lazy_tail r) as [k|] eqn:Hk; [|discriminate].
  intros [= <-].
  destruct (lazy_tail_shape _ _ Hk) as (H2 & Hlen & Hend).
  cbn [Nat.add take].
  assert (Hl : String.length (String "{" (String "{" (String c (take k r)))) = 3 + k)
    by (cbn [String.length]; now rewrite length_take).
  split; [reflexivity | split].
  - unfold endsWith; rewrite Hl.
    destruct k as [|[|k2]]; try (exfalso; inversion H2; fail);
      try (exfalso; apply le_S_n in H2; inversion H2; fail).
    cbn [String.length Nat.add Nat.sub Nat.leb drop andb] in *.
    rewrite Nat.sub_0_r in Hend.
    now rewrite Hend.
  - rewrite Hl; cbn [Nat.add]; do 3 apply le_n_S.
    destruct k as [|[|k2]]; try (exfalso; inversion H2; fail);
      try (exfalso; apply le_S_n in H2; inversion H2; fail).
    auto with arith.
Qed.

Lemma scan_from_match (m : string) (s : string) (skip : nat) :
  In m (scan skip s) -> exists s' n, match_at s' = Some n /\ m = take n s'.
Proof.
  revert skip; induction s as [|c r IH]; intros skip; cbn [scan In]; [tauto|].
  destruct skip as [|k]; [|apply IH].
  destruct (match_at (String c r)) as [n|] eqn:Hn; [|apply IH].
  intros [<- | H]; [|eapply IH, H].
  now exists (String c r), n.
Qed.

End RegexFacts.

(** * The string compiler *)

Section StringCompiler.
Context {E : Env}.

Lemma reduce_app {A B : Type} (f : B -> A -> outcome B) (l1 l2 : list A) (acc : B) :
  reduce f (l1 ++ l2) acc = (a <- reduce f l1 acc ;; reduce f l2 a).
Proof.
  revert acc; induction l1 as [|x l1 IH]; intros acc; simpl; trivial.
  destruct (f acc x); simpl; auto.
Qed.

Lemma combine_map_self {A B : Type} (f : A -> B) (l : list A) :
  combine l (map f l) = map (fun x => (x, f x)) l.
Proof. induction l as [|x l IH]; simpl; [reflexivity | now rewrite IH]. Qed.

Lemma fold_matches_cons e n ctx m ms acc :
  fold_matches e n ctx (m :: ms) acc
  = (a <- step e n ctx acc (m, Parameter' m) ;; fold_matches e n ctx ms a).
Proof. reflexivity. Qed.

Lemma fold_matches_app e n ctx ms1 ms2 acc :
  fold_matches e n ctx (ms1 ++ ms2) acc
  = (a <- fold_matches e n ctx ms1 acc ;; fold_matches e n ctx ms2 a).
Proof.
  unfold fold_matches.
  rewrite !combine_map_self, map_app, reduce_app.
  reflexivity.
Qed.

Lemma step_resolve e n ctx acc m :
  step e n ctx acc (m, Parameter' m) = (v <- resolve e ctx m ;; splice n acc m v).
Proof. reflexivity. Qed.

(** What [parseString] compiles to, placeholders or not. *)
Lemma parseString_fn (str : string) (e : bool) (ctx : value) :
  fn (parseString str e) ctx
  = fold_matches e (List.length (Regex.str_match str)) (context_or_empty ctx)
      (Regex.str_match str) (VString str).
Proof.
  unfold parseString.
  destruct (Regex.test str) eqn:Ht; simpl; trivial.
  now rewrite (RegexFacts.test_false_no_match _ Ht).
Qed.

Lemma parseString_parameters (str : string) (e : bool) :
  parameters (parseString str e) = dedupe (map Parameter' (Regex.str_match str)) key.
Proof.
  unfold parseString.
  destruct (Regex.test str) eqn:Ht; simpl; trivial.
  now rewrite (RegexFacts.test_false_no_match _ Ht).
Qed.

Lemma parseString_constant (str : string) (e : bool) :
  Regex.test str = false ->
  parameters (parseString str e) = [] /\ forall ctx, fn (parseString str e) ctx = Ok (VString str).
Proof. intros Ht; unfold parseString; rewrite Ht; split; reflexivity. Qed.

(** The three ways a step ends once the value is resolved. *)
Lemma splice_object n acc m v : typeof v = TyObject -> splice n acc m v = Ok v.
Proof. intros H; unfold splice; now rewrite H. Qed.

Lemma splice_nullish n acc m v : nullish v = true -> splice n acc m v = Ok VNull.
Proof. destruct v; try discriminate; reflexivity. Qed.

Lemma splice_replace (n : nat) (acc : value) (m : string) (v : value) :
  scalar v = true ->
  (n = 1 -> exists s, acc = VString s
                      /\ JsString.startsWith "{{" s && JsString.endsWith "}}" s = false) ->
  splice n acc m v
  = string_method "replace" acc (fun s => String_replace s m v).
Proof.
  intros Hv Hn; unfold splice.
  replace (typeof_eqb (typeof v) TyObject) with false by (now destruct v).
  replace (nullish v) with false by (now destruct v).
  destruct (Nat.eqb n 1) eqn:E1.
  - apply Nat.eqb_eq in E1. destruct (Hn E1) as (s & -> & Hs).
    cbn [string_method bind].
    destruct (JsString.startsWith "{{" s); cbn [truthy bind andb] in *; [now rewrite Hs|reflexivity].
  - reflexivity.
Qed.

Lemma String_replace_scalar (s m : string) (v : value) (text : string) :
  scalar v = true -> ToString v = Ok text ->
  String_replace s m v = Ok (VString (JsString.replace m text s)).
Proof.
  intros Hv Ht; destruct v; try discriminate; unfold String_replace; now rewrite Ht.
Qed.

(** A fold that reached [null] stays there while the matches resolve to
    [null] or [undefined]. *)
Lemma fold_matches_nullish (e : bool) (n : nat) (ctx : value) (ms : list string) :
  Forall (fun m => exists v, resolve e ctx m = Ok v /\ nullish v = true) ms ->
  fold_matches e n ctx ms VNull = Ok VNull.
Proof.
  induction 1 as [|m ms (v & Hv & Hn) _ IH]; [reflexivity|].
  rewrite fold_matches_cons, step_resolve, Hv; cbn [bind].
  now rewrite (splice_nullish _ _ _ _ Hn).
Qed.

End StringCompiler.

(** * Induction on values, and facts about [dedupe] *)

Lemma value_nested_ind (P : value -> Prop) :
  P VUndefined -> P VNull -> (forall b, P (VBool b)) -> (forall n, P (VNumber n)) ->
  (forall s, P (VString s)) -> (forall t, P (VDate t)) ->
  (forall xs, Forall P xs -> P (VArray xs)) ->
  (forall props, Forall (fun kv => P (snd kv)) props -> P (VObject props)) ->
  (forall body, P (VFunction body)) ->
  forall v, P v.
Proof.
  intros Hu Hnull Hb Hn Hs Hd Ha Ho Hf.
  fix IH 1.
  intros [| | b | n | s | t | xs | props | body];
    [exact Hu | exact Hnull | apply Hb | apply Hn | apply Hs | apply Hd | | | apply Hf].
  - apply Ha. induction xs as [|x xs IHxs]; constructor; [apply IH | exact IHxs].
  - apply Ho. induction props as [|[k x] props IHp]; constructor; [apply IH | exact IHp].
Qed.

Section Dedupe.
Context {A : Type} (h : A -> string).
Local Open Scope list_scope.

Lemma dedupe_from_seen_equiv (s1 s2 : list string) (l : list A) :
  (forall k, seen_in k s1 = seen_in k s2) ->
  dedupe_from h s1 l = dedupe_from h s2 l.
Proof.
  revert s1 s2; induction l as [|x l IH]; intros s1 s2 Heq; cbn [dedupe_from]; trivial.
  rewrite (Heq (h x)).
  destruct (seen_in (h x) s2); [now apply IH|].
  f_equal; apply IH.
  intros k; unfold seen_in; cbn [existsb]; fold (seen_in k s1); fold (seen_in k s2).
  now rewrite Heq.
Qed.

Lemma seen_in_app (k : string) (s1 s2 : list string) :
  seen_in k (s1 ++ s2) = seen_in k s1 || seen_in k s2.
Proof. apply existsb_app. Qed.

Lemma seen_in_cons (k a : string) (s : list string) :
  seen_in k (a :: s) = String.eqb k a || seen_in k s.
Proof. reflexivity. Qed.

(** The scan of a concatenation: the second part is scanned with the keys of
    the first part seen. *)
Lemma dedupe_from_app (s : list string) (l1 l2 : list A) :
  dedupe_from h s (l1 ++ l2)
  = dedupe_from h s l1 ++ dedupe_from h (map h l1 ++ s) l2.
Proof.
  revert s; induction l1 as [|x l1 IH]; intros s; cbn [dedupe_from app map]; trivial.
  destruct (seen_in (h x) s) eqn:Hx.
  - rewrite IH; f_equal.
    apply dedupe_from_seen_equiv; intros k.
    rewrite seen_in_cons, !seen_in_app.
    destruct (String.eqb_spec k (h x)) as [->|]; [|reflexivity].
    now rewrite Hx, orb_true_r.
  - cbn [app]; f_equal; rewrite IH; f_equal.
    apply dedupe_from_seen_equiv; intros k.
    rewrite seen_in_cons, !seen_in_app, seen_in_cons.
    destruct (String.eqb k (h x)), (seen_in k (map h l1)); reflexivity.
Qed.

(** Scanning what a scan kept changes nothing, when the second scan has seen
    at least what the first had. *)
Lemma dedupe_from_twice (s s' : list string) (l : list A) :
  (forall k, seen_in k s' = true -> seen_in k s = true) ->
  dedupe_from h s (dedupe_from h s' l) = dedupe_from h s l.
Proof.
  revert s s'; induction l as [|x l IH]; intros s s' Hsub; cbn [dedupe_from]; trivial.
  destruct (seen_in (h x) s') eqn:Hx'.
  - rewrite (Hsub _ Hx'); now apply IH.
  - cbn [dedupe_from].
    destruct (seen_in (h x) s) eqn:Hx.
    + apply IH; intros k; rewrite seen_in_cons.
      destruct (String.eqb_spec k (h x)) as [->|]; cbn [orb]; auto.
    + f_equal; apply IH; intros k; rewrite !seen_in_cons.
      destruct (String.eqb k (h x)); cbn [orb]; auto.
Qed.

(** A scan keeps one element for every key it meets. *)
Lemma dedupe_from_keys (s : list string) (l : list A) (k : string) :
  seen_in k (map h (dedupe_from h s l) ++ s) = seen_in k (map h l ++ s).
Proof.
  revert s; induction l as [|x l IH]; intros s; cbn [dedupe_from map app]; trivial.
  destruct (seen_in (h x) s) eqn:Hx.
  - rewrite IH, seen_in_cons, !seen_in_app.
    destruct (String.eqb_spec k (h x)) as [->|]; [|reflexivity].
    now rewrite Hx, orb_true_r.
  - cbn [map app]; rewrite !seen_in_cons.
    destruct (String.eqb k (h x)) eqn:Hk; cbn [orb]; trivial.
    specialize (IH (h x :: s)).
    rewrite !seen_in_app, !seen_in_cons, Hk in IH; cbn [orb] in IH.
    now rewrite !seen_in_app.
Qed.

(** Lists that were each deduplicated on their own, concatenated and
    deduplicated again, give what the deduplication of the concatenation of
    the lists as they were gives. *)
Lemma dedupe_from_concat (s : list string) (Ls : list (list A)) :
  dedupe_from h s (concat (map (fun L => dedupe L h) Ls)) = dedupe_from h s (concat Ls).
Proof.
  revert s; induction Ls as [|L Ls IH]; intros s; cbn [map concat]; trivial.
  rewrite !dedupe_from_app, IH.
  unfold dedupe at 1.
  rewrite dedupe_from_twice by (intros k; discriminate).
  f_equal.
  apply dedupe_from_seen_equiv; intros k.
  pose proof (dedupe_from_keys [] L k) as Hk.
  rewrite !app_nil_r in Hk.
  unfold dedupe; now rewrite !seen_in_app, Hk.
Qed.

Lemma dedupe_concat (Ls : list (list A)) :
  dedupe (concat (map (fun L => dedupe L h) Ls)) h = dedupe (concat Ls) h.
Proof. apply dedupe_from_concat. Qed.

Lemma dedupe_from_not_seen (s : list string) (l : list A) (x : A) :
  In x (dedupe_from h s l) -> In x l /\ seen_in (h x) s = false.
Proof.
  revert s; induction l as [|y l IH]; intros s; cbn [dedupe_from In]; [tauto|].
  destruct (seen_in (h y) s) eqn:Hy.
  - intros H; destruct (IH _ H); split; [now right | assumption].
  - intros [<- | H]; [split; [now left | assumption]|].
    destruct (IH _ H) as [Hin Hs]; split; [now right|].
    rewrite seen_in_cons in Hs; now apply orb_false_iff in Hs.
Qed.

(** No key occurs twice in the result. *)
Lemma dedupe_from_NoDup (s : list string) (l : list A) :
  NoDup (map h (dedupe_from h s l)).
Proof.
  revert s; induction l as [|x l IH]; intros s; cbn [dedupe_from]; [constructor|].
  destruct (seen_in (h x) s); [apply IH|].
  cbn [map]; constructor; [|apply IH].
  intros Hin; apply in_map_iff in Hin as (y & Hy & Hin).
  apply dedupe_from_not_seen in Hin as [_ Hs].
  rewrite seen_in_cons, Hy, String.eqb_refl in Hs; discriminate.
Qed.

(** Every element kept is the first of the list with its key. *)
Lemma dedupe_from_first (s : list string) (l : list A) (p : A) :
  In p (dedupe_from h s l) ->
  seen_in (h p) s = false
  /\ exists l1 l2, l = l1 ++ p :: l2 /\ ~ In (h p) (map h l1).
Proof.
  revert s; induction l as [|x l IH]; intros s; cbn [dedupe_from In]; [tauto|].
  destruct (seen_in (h x) s) eqn:Hx.
  - intros H; destruct (IH _ H) as (Hs & l1 & l2 & -> & Hn); split; trivial.
    exists (x :: l1), l2; split; trivial.
    cbn [map In]; intros [Heq | Hin]; [|contradiction].
    rewrite Heq in Hx; congruence.
  - intros [<- | H].
    + split; trivial. exists [], l; split; trivial. cbn; tauto.
    + destruct (IH _ H) as (Hs & l1 & l2 & -> & Hn).
      rewrite seen_in_cons in Hs; apply orb_false_iff in Hs as [Hne Hs].
      split; trivial.
      exists (x :: l1), l2; split; trivial.
      cbn [map In]; intros [Heq | Hin]; [|contradiction].
      rewrite Heq, String.eqb_refl in Hne; discriminate.
Qed.

End Dedupe.

(** * The object and array compilers *)

Section Structure.
Context {E : Env}.
Local Open Scope list_scope.

Lemma fold_left_concat {A B : Type} (f : A -> list B) (l : list A) (acc : list B) :
  fold_left (fun ps t => ps ++ f t) l acc = acc ++ concat (map f l).
Proof.
  revert acc; induction l as [|x l IH]; intros acc; cbn [fold_left map concat].
  - now rewrite app_nil_r.
  - now rewrite IH, app_assoc.
Qed.

Lemma parameters_arrayTemplate (templates : list Template_t) :
  parameters (arrayTemplate templates) = dedupe (concat (map parameters templates)) key.
Proof. unfold arrayTemplate, Template; cbn [parameters]. now rewrite fold_left_concat. Qed.

Lemma parameters_objectTemplate (children : list (Template_t * Template_t)) :
  parameters (objectTemplate children)
  = dedupe (concat (map (fun c => parameters (snd c) ++ parameters (fst c)) children)) key.
Proof.
  unfold objectTemplate, Template; cbn [parameters].
  now rewrite (fold_left_concat (fun c => parameters (snd c) ++ parameters (fst c))).
Qed.

Lemma parse_string (s : string) (e : bool) : parse (VString s) e = parseString s e.
Proof. reflexivity. Qed.

Lemma parse_array (xs : list value) (e : bool) :
  parse (VArray xs) e = arrayTemplate (map (fun el => parse el e) xs).
Proof. reflexivity. Qed.

Lemma parse_object (props : list (string * value)) (e : bool) :
  parse (VObject props) e
  = objectTemplate (map (fun kv => (parseString (fst kv) e, parse (snd kv) e)) props).
Proof. reflexivity. Qed.

(** The parameters of a compiled template: the traversal list, deduplicated. *)
Lemma parameters_parse (v : value) (e : bool) :
  parameters (parse v e) = dedupe (traversal_parameters v) key.
Proof.
  induction v as [| | b | n | s | t | xs IH | props IH | body] using value_nested_ind;
    try reflexivity.
  - rewrite parse_string. apply parseString_parameters.
  - rewrite parse_array; cbn [traversal_parameters].
    rewrite parameters_arrayTemplate, map_map, flat_map_concat_map.
    rewrite <- (dedupe_concat key (map traversal_parameters xs)), map_map.
    f_equal; f_equal.
    induction IH as [|x xs Hx _ IHxs]; cbn [map]; [reflexivity | now rewrite Hx, IHxs].
  - rewrite parse_object; cbn [traversal_parameters].
    rewrite parameters_objectTemplate, map_map, flat_map_concat_map.
    cbn [fst snd].
    set (pieces := flat_map
                     (fun kv => [traversal_parameters (snd kv);
                                 map Parameter' (Regex.str_match (fst kv))]) props).
    transitivity (dedupe (concat (map (fun L => dedupe L key) pieces)) key).
    + f_equal. subst pieces.
      induction IH as [|[k x] props Hx _ IHp]; cbn [map concat flat_map app fst snd];
        [reflexivity|].
      cbn [fst snd] in Hx.
      rewrite Hx, parseString_parameters, IHp, <- app_assoc; reflexivity.
    + rewrite dedupe_concat. f_equal. subst pieces.
      clear IH; induction props as [|[k x] props IHp]; cbn [map concat flat_map app fst snd];
        [reflexivity|].
      now rewrite IHp, <- app_assoc.
Qed.

(** ** Rebuilding an object whose keys hold no placeholder *)

Lemma precedes_distinct (k' k : string) : Props.precedes k' k = true -> String.eqb k k' = false.
Proof.
  unfold Props.precedes; intros H.
  destruct (String.eqb_spec k k') as [->|]; trivial.
  destruct (Props.array_index k') as [n|].
  - rewrite N.ltb_irrefl in H; discriminate.
  - rewrite String.eqb_refl in H; discriminate.
Qed.

Lemma wf_keys_last (ks : list string) (k : string) (r : list string) :
  Props.wf_keys (ks ++ k :: r) = true ->
  Forall (fun k' => Props.precedes k' k = true) ks /\ Props.wf_keys (ks ++ [k]) = true.
Proof.
  induction ks as [|a ks IH]; cbn [app Props.wf_keys forallb].
  - intros _; split; [constructor | reflexivity].
  - intros H; apply andb_true_iff in H as [Ha Hr].
    destruct (IH Hr) as [Hf Hw].
    rewrite forallb_app in Ha; apply andb_true_iff in Ha as [Ha1 Ha2].
    cbn [forallb] in Ha2; apply andb_true_iff in Ha2 as [Hak _].
    split; [constructor; assumption|].
    rewrite forallb_app, Ha1, Hw; cbn [forallb]; now rewrite Hak.
Qed.

Lemma own_absent (k : string) (acc : list (string * value)) :
  Forall (fun k' => Props.precedes k' k = true) (map fst acc) -> own k acc = None.
Proof.
  induction acc as [|[k' v'] acc IH]; cbn [map own fst]; trivial.
  intros H; inversion H as [|? ? Hk Hr]; subst.
  rewrite (precedes_distinct _ _ Hk); auto.
Qed.

Lemma insert_last (k : string) (v : value) (acc : list (string * value)) :
  Forall (fun k' => Props.precedes k' k = true) (map fst acc) ->
  Props.insert k v acc = acc ++ [(k, v)].
Proof.
  unfold Props.insert.
  destruct (Props.array_index k) as [n|] eqn:Hk; trivial.
  induction acc as [|[k' v'] acc IH]; cbn [map Props.insert_index fst app]; trivial.
  intros H; inversion H as [|? ? Hp Hr]; subst.
  unfold Props.precedes in Hp; rewrite Hk in Hp.
  destruct (Props.array_index k') as [n'|]; [|discriminate].
  rewrite Hp; f_equal; auto.
Qed.

Lemma set_last (k : string) (v : value) (acc : list (string * value)) :
  Forall (fun k' => Props.precedes k' k = true) (map fst acc) ->
  String.eqb k "__proto__" = false ->
  Props.set acc k v = Ok (acc ++ [(k, v)]).
Proof.
  intros Hf Hp; unfold Props.set.
  now rewrite (own_absent _ _ Hf), Hp, (insert_last _ _ _ Hf).
Qed.

(** A value without placeholder, whose objects are well formed and have no
    key [__proto__], compiles to a template without parameters that renders
    to the value itself in every context. *)
Lemma parse_placeholder_free (v : value) (e : bool) :
  placeholder_free v = true -> well_formed v = true -> proto_free v = true ->
  parameters (parse v e) = [] /\ forall ctx, fn (parse v e) ctx = Ok v.
Proof.
  induction v as [| | b | n | s | t | xs IH | props IH | body] using value_nested_ind;
    intros Hpf Hwf Hproto; try (split; reflexivity).
  - rewrite parse_string. apply parseString_constant.
    cbn in Hpf. now apply negb_true_iff in Hpf.
  - cbn [placeholder_free well_formed proto_free] in *.
    assert (Hall : Forall (fun x => parameters (parse x e) = []
                                    /\ forall ctx, fn (parse x e) ctx = Ok x) xs).
    { rewrite forallb_forall in Hpf, Hwf, Hproto.
      rewrite Forall_forall in IH |- *; intros x Hx; apply IH; auto. }
    clear IH Hpf Hwf Hproto; split.
    + rewrite parse_array, parameters_arrayTemplate, map_map.
      replace (concat (map (fun x => parameters (parse x e)) xs)) with (@nil Parameter_t);
        [reflexivity|].
      induction Hall as [|x xs [Hx _] _ IHx]; cbn [map concat]; [reflexivity|].
      now rewrite Hx, <- IHx.
    + intros ctx; rewrite parse_array; cbn [arrayTemplate Template fn].
      replace (map_templates (map (fun el => parse el e) xs) ctx) with (Ok (A:=list value) xs);
        [reflexivity|].
      induction Hall as [|x xs [_ Hx] _ IHx]; cbn [map map_templates]; [reflexivity|].
      now rewrite Hx, <- IHx.
  - cbn [placeholder_free well_formed proto_free] in *.
    apply andb_true_iff in Hwf as [Hkeys Hwf].
    assert (Hall : Forall (fun kv =>
                Regex.test (fst kv) = false /\ String.eqb (fst kv) "__proto__" = false
                /\ parameters (parse (snd kv) e) = []
                /\ forall ctx, fn (parse (snd kv) e) ctx = Ok (snd kv)) props).
    { rewrite forallb_forall in Hpf, Hwf, Hproto.
      rewrite Forall_forall in IH |- *; intros kv Hkv.
      specialize (Hpf _ Hkv); specialize (Hwf _ Hkv); specialize (Hproto _ Hkv).
      apply andb_true_iff in Hpf as [Hk Hv], Hproto as [Hp Hpv].
      apply negb_true_iff in Hk, Hp.
      repeat split; trivial; now apply (IH _ Hkv). }
    clear IH Hpf Hwf Hproto; split.
    + rewrite parse_object, parameters_objectTemplate, map_map; cbn [fst snd].
      replace (concat _) with (@nil Parameter_t); [reflexivity|].
      clear Hkeys.
      induction Hall as [|kv props (Hk & _ & Hv & _) _ IHp]; cbn [map concat]; [reflexivity|].
      rewrite Hv, (proj1 (parseString_constant _ e Hk)), <- IHp; reflexivity.
    + intros ctx; rewrite parse_object; cbn [objectTemplate Template fn].
      set (f := assign_child ctx).
      set (mk := fun kv : string * value => (parseString (fst kv) e, parse (snd kv) e)).
      enough (Hgen : forall acc, Props.wf_keys (map fst (acc ++ props)) = true ->
                                 reduce f (map mk props) acc = Ok (acc ++ props)).
      { now rewrite (Hgen [] Hkeys). }
      clear Hkeys.
      induction Hall as [|[k x] props (Hk & Hp & _ & Hx) _ IHp]; intros acc Hacc;
        cbn [map reduce].
      * now rewrite app_nil_r.
      * cbn [fst snd] in *.
        unfold f at 1, assign_child, mk at 1; cbn [fst snd].
        rewrite (proj2 (parseString_constant _ e Hk)), Hx; cbn [bind ToString prim_to_string].
        rewrite map_app in Hacc; cbn [map fst] in Hacc.
        destruct (wf_keys_last _ _ _ Hacc) as [Hbefore _].
        rewrite (set_last _ _ _ Hbefore Hp); cbn [bind].
        rewrite IHp, <- app_assoc; [reflexivity|].
        now rewrite <- app_assoc, map_app.
Qed.

(** ** An error of a child leaves the render of the parent *)

Lemma map_templates_throw (ts1 : list Template_t) (t : Template_t) (ts2 : list Template_t)
    (ctx : value) (vs : list value) (err : error) :
  map_templates ts1 ctx = Ok vs -> fn t ctx = Throw err ->
  map_templates (ts1 ++ t :: ts2) ctx = Throw err.
Proof.
  revert vs; induction ts1 as [|a ts1 IH]; intros vs H1 Ht; cbn [app map_templates].
  - now rewrite Ht.
  - cbn [map_templates] in H1.
    destruct (fn a ctx) as [va| |]; cbn [bind] in *; try discriminate.
    destruct (map_templates ts1 ctx) as [vs1| |] eqn:Hts1; cbn [bind] in H1; try discriminate.
    now rewrite (IH vs1 eq_refl Ht).
Qed.

Lemma map_templates_Forall2 (ts : list Template_t) (ctx : value) (vs : list value) :
  map_templates ts ctx = Ok vs -> Forall2 (fun t v => fn t ctx = Ok v) ts vs.
Proof.
  revert vs; induction ts as [|t ts IH]; intros vs; cbn [map_templates].
  - intros [= <-]; constructor.
  - destruct (fn t ctx) as [v| |] eqn:Ht; cbn [bind]; try discriminate.
    destruct (map_templates ts ctx) as [vs'| |]; cbn [bind]; try discriminate.
    intros [= <-]; constructor; auto.
Qed.

Lemma arrayTemplate_inv (ts : list Template_t) (ctx v : value) :
  fn (arrayTemplate ts) ctx = Ok v ->
  exists vs, v = VArray vs /\ map_templates ts ctx = Ok vs.
Proof.
  cbn [arrayTemplate Template fn].
  destruct (map_templates ts ctx) as [vs| |]; cbn [bind]; try discriminate.
  intros [= <-]; now exists vs.
Qed.

Lemma arrayTemplate_throw (ts1 : list Template_t) (t : Template_t) (ts2 : list Template_t)
    (ctx v : value) (err : error) :
  fn (arrayTemplate ts1) ctx = Ok v -> fn t ctx = Throw err ->
  fn (arrayTemplate (ts1 ++ t :: ts2)) ctx = Throw err.
Proof.
  intros H1 Ht; apply arrayTemplate_inv in H1 as (vs & _ & Hvs).
  cbn [arrayTemplate Template fn].
  now rewrite (map_templates_throw _ _ _ _ _ _ Hvs Ht).
Qed.

Lemma objectTemplate_inv (children : list (Template_t * Template_t)) (ctx v : value) :
  fn (objectTemplate children) ctx = Ok v ->
  exists props, v = VObject props /\ reduce (assign_child ctx) children [] = Ok props.
Proof.
  cbn [objectTemplate Template fn].
  destruct (reduce (assign_child ctx) children []) as [props| |]; cbn [bind]; try discriminate.
  intros [= <-]; now exists props.
Qed.

Lemma objectTemplate_throw (cs1 : list (Template_t * Template_t)) (kt vt : Template_t)
    (cs2 : list (Template_t * Template_t)) (ctx v : value) (err : error) :
  fn (objectTemplate cs1) ctx = Ok v ->
  fn kt ctx = Throw err \/ (exists k, fn kt ctx = Ok k /\ fn vt ctx = Throw err) ->
  fn (objectTemplate (cs1 ++ (kt, vt) :: cs2)) ctx = Throw err.
Proof.
  intros H1 Ht; apply objectTemplate_inv in H1 as (props & _ & Hp).
  cbn [objectTemplate Template fn].
  rewrite reduce_app, Hp; cbn [bind reduce].
  unfold assign_child at 1; cbn [fst snd].
  destruct Ht as [Hk | (k & Hk & Hv)]; rewrite Hk; cbn [bind]; [reflexivity|].
  now rewrite Hv.
Qed.

End Structure.

(** * Further facts about strings, [Parameter] and the tokenizer *)

Module ParameterFacts.
Import JsString JsStringFacts Regex.

Lemma length_append (a b : string) :
  String.length (a ++ b) = String.length a + String.length b.
Proof. induction a as [|c a IH]; cbn [append String.length]; [reflexivity | now rewrite IH]. Qed.

Lemma take_drop (n : nat) (s : string) : (take n s ++ drop n s)%string = s.
Proof.
  revert n; induction s as [|c r IH]; intros [|n]; cbn [take drop append]; trivial.
  now rewrite IH.
Qed.

Lemma take_all (a b : string) : take (String.length a) (a ++ b) = a.
Proof.
  rewrite <- (Nat.add_0_r (String.length a)), take_app.
  cbn [take]; destruct b; apply append_empty_r.
Qed.

(** The text between the delimiters of a placeholder that was built from it. *)
Lemma inner_of_braces (x : string) :
  substr 2 (String.length ("{{" ++ x ++ "}}") - 4) ("{{" ++ x ++ "}}") = x.
Proof.
  unfold substr; cbn [append drop String.length].
  rewrite length_append; cbn [String.length].
  replace (S (S (String.length x + 2)) - 4) with (String.length x)
    by (rewrite Nat.add_comm; cbn [Nat.add Nat.sub]; now rewrite Nat.sub_0_r).
  apply take_all.
Qed.

Lemma trimEnd_append (a b : string) (c : ascii) (r : string) :
  trimEnd b = String c r -> trimEnd (a ++ b) = (a ++ String c r)%string.
Proof.
  intros Hb; induction a as [|x a IH]; cbn [append]; [exact Hb|].
  cbn [trimEnd]; rewrite IH.
  destruct a; reflexivity.
Qed.

Lemma trimEnd_colon (d : string) : trimEnd (String ":" d) = String ":" (trimEnd d).
Proof. cbn [trimEnd]; destruct (trimEnd d); reflexivity. Qed.

(** A trimmed key, a colon and a default without trailing white space make
    a text that [trim] leaves as it is. *)
Lemma trim_key_colon_default (k d : string) :
  trim k = k -> trimEnd d = d -> trim (k ++ String ":" d) = (k ++ String ":" d)%string.
Proof.
  intros Hk Hd; unfold trim.
  assert (Hs : trimStart (k ++ String ":" d) = (k ++ String ":" d)%string).
  { destruct (trim_head k) as [H | (c & r & H & Hc)]; rewrite Hk in H; subst k.
    - reflexivity.
    - cbn [append trimStart]; now rewrite Hc. }
  rewrite Hs.
  apply trimEnd_append; now rewrite trimEnd_colon, Hd.
Qed.

(** The split at the first occurrence of a character loses nothing, and the
    left part is free of the character. *)
Lemma indexOf_char_parts (c : ascii) (s : string) (i : nat) :
  indexOf (String c "") s = Some i ->
  s = (take i s ++ String c (drop (i + 1) s))%string
  /\ indexOf (String c "") (take i s) = None.
Proof.
  revert i; induction s as [|a r IH]; intros i; cbn [indexOf startsWith].
  - discriminate.
  - destruct (Ascii.eqb c a) eqn:Hca; cbn [andb].
    + intros [= <-]; apply Ascii.eqb_eq in Hca; subst a.
      cbn [take drop append Nat.add indexOf startsWith]; now split.
    + destruct (indexOf (String c "") r) as [j|]; [|discriminate].
      intros [= <-].
      destruct (IH j eq_refl) as [Hs Hn].
      cbn [take drop Nat.add append indexOf startsWith].
      rewrite Hca, Hn; cbn [andb option_map].
      split; [now rewrite <- Hs | reflexivity].
Qed.

(** A text without an opening brace holds no placeholder. *)
Lemma brace_free_no_match (s : string) : char_free "{" s = true -> test s = false.
Proof.
  unfold test; induction s as [|c r IH]; intros H.
  - reflexivity.
  - cbn [char_free] in H; apply andb_true_iff in H as [Hc Hr].
    apply negb_true_iff in Hc.
    cbn [exec]. unfold match_at; cbn [startsWith].
    rewrite Ascii.eqb_sym, Hc; cbn [andb].
    specialize (IH Hr); destruct (exec r); [discriminate | reflexivity].
Qed.

End ParameterFacts.

(** * The matches of a scan, in the text *)

Module ScanFacts.
Import JsString JsStringFacts Regex.

Lemma match_at_positive (s : string) (n : nat) : match_at s = Some n -> exists k, n = S k.
Proof.
  unfold match_at.
  destruct (startsWith "{{" s); [|discriminate].
  destruct (drop 2 s) as [|c r]; [discriminate|].
  destruct (group_char c); [|discriminate].
  destruct (lazy_tail r) as [k|]; [|discriminate].
  intros [= <-]; now exists (2 + k).
Qed.

Lemma scan_drop (k : nat) (s : string) : scan k s = scan 0 (drop k s).
Proof.
  revert k; induction s as [|c r IH]; intros [|k]; cbn [scan drop]; auto.
Qed.

Lemma str_match_here (s : string) (k : nat) :
  match_at s = Some (S k) -> str_match s = take (S k) s :: str_match (drop (S k) s).
Proof.
  unfold str_match; destruct s as [|c r]; [discriminate|].
  intros H; cbn [scan]; rewrite H.
  cbn [Nat.sub drop]; now rewrite Nat.sub_0_r, scan_drop.
Qed.

Lemma str_match_later (c : ascii) (r : string) :
  match_at (String c r) = None -> str_match (String c r) = str_match r.
Proof. unfold str_match; intros H; cbn [scan]; now rewrite H. Qed.

Lemma length_drop (k : nat) (s : string) : String.length (drop k s) <= String.length s.
Proof.
  revert k; induction s as [|c r IH]; intros [|k]; cbn [drop String.length]; auto.
Qed.

Lemma startsWith_append (p g r : string) :
  startsWith p g = true -> startsWith p (g ++ r) = true.
Proof.
  revert g; induction p as [|a p IH]; intros g; cbn [startsWith]; trivial.
  destruct g as [|b g]; [discriminate|]; cbn [append startsWith].
  intros H; apply andb_true_iff in H as [Hab Hp]; now rewrite Hab, (IH g Hp).
Qed.

(** What the lazy quantifier matches does not depend on the text after it. *)
Lemma lazy_tail_append (g r : string) (k : nat) :
  lazy_tail g = Some k -> lazy_tail (g ++ r) = Some k.
Proof.
  revert k; induction g as [|c g IH]; intros k; [discriminate|].
  cbn [lazy_tail append].
  destruct (startsWith "}}" (String c g)) eqn:Hs.
  - intros [= <-].
    pose proof (startsWith_append "}}" (String c g) r Hs) as Hs'.
    cbn [append] in Hs'; now rewrite Hs'.
  - destruct (group_char c); [|discriminate].
    destruct (lazy_tail g) as [k'|] eqn:Hk; [|discriminate].
    intros [= <-].
    assert (Hs' : startsWith "}}" (String c (g ++ r)) = false).
    { destruct g as [|d g]; [discriminate|]. exact Hs. }
    now rewrite Hs', (IH k' eq_refl).
Qed.

Lemma match_at_append (g r : string) (n : nat) :
  match_at g = Some n -> match_at (g ++ r) = Some n.
Proof.
  unfold match_at.
  destruct (startsWith "{{" g) eqn:Hs; [|discriminate].
  rewrite (startsWith_append _ _ r Hs).
  apply RegexFacts.startsWith_2 in Hs as [g' ->]; cbn [append drop].
  destruct g' as [|c g']; [discriminate|]; cbn [append].
  destruct (group_char c); [|discriminate].
  destruct (lazy_tail g') as [k|] eqn:Hk; [|discriminate].
  now rewrite (lazy_tail_append g' r k Hk).
Qed.

(** The scanned text is the text before the first match, then each match
    with the text after it; none of these texts holds a match. *)
Lemma scan_partition (n : nat) (s : string) :
  String.length s <= n ->
  exists first rest,
    map fst rest = str_match s /\ weave first rest = s
    /\ test first = false /\ Forall (fun mg => test (snd mg) = false) rest.
Proof.
  revert s; induction n as [|n IH]; intros s Hlen.
  - destruct s; [|inversion Hlen].
    exists "", []; repeat split; constructor.
  - destruct s as [|c r]; [exists "", []; repeat split; constructor|].
    cbn [String.length] in Hlen; apply le_S_n in Hlen.
    destruct (match_at (String c r)) as [m|] eqn:Hm.
    + destruct (match_at_positive _ _ Hm) as [k ->].
      destruct (IH (drop (S k) (String c r))) as (first & rest & Hms & Hw & Hf & Hr).
      { cbn [drop]; eapply Nat.le_trans; [apply length_drop | exact Hlen]. }
      exists "", ((take (S k) (String c r), first) :: rest).
      split; [cbn [map fst]; now rewrite Hms, (str_match_here _ _ Hm)|].
      split; [|split; [reflexivity | now constructor]].
      unfold weave in *; cbn [weave_rest].
      change ("" ++ ?x)%string with x.
      rewrite Hw; apply ParameterFacts.take_drop.
    + destruct (IH r Hlen) as (first & rest & Hms & Hw & Hf & Hr).
      exists (String c first), rest.
      split; [now rewrite Hms, (str_match_later _ _ Hm)|].
      split; [unfold weave in *; cbn [append]; now rewrite Hw|].
      split; [|exact Hr].
      unfold test in *; cbn [exec].
      destruct (match_at (String c first)) as [m|] eqn:Hm'.
      * apply (match_at_append _ (weave_rest rest)) in Hm'.
        unfold weave in Hw; cbn [append] in Hm'; rewrite Hw in Hm'; congruence.
      * destruct (exec first); [discriminate | reflexivity].
Qed.

End ScanFacts.

(** * Filling the placeholders of a string *)

Module FillFacts.
Import JsString JsStringFacts Regex ParameterFacts ScanFacts.

Lemma startsWith_self_append (p s : string) : startsWith p (p ++ s) = true.
Proof. induction p as [|c p IH]; cbn [append startsWith]; trivial. now rewrite Ascii.eqb_refl. Qed.

Lemma startsWith_split (p s : string) : startsWith p s = true -> exists r, s = (p ++ r)%string.
Proof.
  revert s; induction p as [|a p IH]; intros s; cbn [startsWith].
  - intros _; now exists s.
  - destruct s as [|b s]; [discriminate|].
    intros H; apply andb_true_iff in H as [Hab Hp].
    apply Ascii.eqb_eq in Hab; subst b.
    destruct (IH s Hp) as [r ->]; now exists r.
Qed.

(** When [m] starts a text made of [u] and more, either [m] starts [u] or
    [u] is a shorter start of [m]. *)
Lemma startsWith_append_cases (m u Z : string) :
  startsWith m (u ++ Z) = true ->
  startsWith m u = true
  \/ (startsWith u m = true /\ String.length u < String.length m).
Proof.
  revert u; induction m as [|a m IH]; intros u; cbn [startsWith]; [now left|].
  destruct u as [|b u]; cbn [append].
  - intros _; right; split; [reflexivity | cbn [String.length]; auto with arith].
  - cbn [startsWith String.length].
    intros H; apply andb_true_iff in H as [Hab Hm].
    destruct (IH u Hm) as [H1 | [H1 H2]].
    + left; now rewrite Hab.
    + right; split; [|now apply -> Nat.succ_lt_mono].
      rewrite Ascii.eqb_sym, Hab; exact H1.
Qed.

Lemma group_text_append (a b : string) :
  group_text (a ++ b) = group_text a && group_text b.
Proof.
  induction a as [|c a IH]; cbn [append group_text]; trivial.
  now rewrite IH, andb_assoc.
Qed.

Lemma group_text_start (w x : string) :
  startsWith w x = true -> group_text x = true -> group_text w = true.
Proof.
  intros Hw Hx; apply startsWith_split in Hw as [r ->].
  rewrite group_text_append in Hx; now apply andb_true_iff in Hx as [H _].
Qed.

(** The lazy quantifier stops somewhere in a text of the group that two
    closing braces follow. *)
Lemma lazy_tail_group (w r : string) :
  group_text w = true -> exists k, lazy_tail (w ++ "}}" ++ r) = Some k.
Proof.
  induction w as [|c w IH]; intros Hw.
  - exists 2; reflexivity.
  - cbn [group_text] in Hw; apply andb_true_iff in Hw as [Hc Hw].
    destruct (IH Hw) as [k Hk].
    cbn [append lazy_tail] in Hk |- *.
    destruct (startsWith "}}" _); [now exists 2|].
    rewrite Hc, Hk; now exists (S k).
Qed.

Lemma match_at_group (body r : string) :
  body <> EmptyString -> group_text body = true ->
  exists n, match_at ("{{" ++ body ++ "}}" ++ r) = Some n.
Proof.
  intros Hne Hg; destruct body as [|c w]; [contradiction|].
  cbn [group_text] in Hg; apply andb_true_iff in Hg as [Hc Hw].
  destruct (lazy_tail_group w r Hw) as [k Hk].
  unfold match_at; cbn [append startsWith drop] in Hk |- *.
  rewrite !Ascii.eqb_refl; cbn [andb].
  rewrite Hc, Hk; now eexists.
Qed.

Lemma match_at_placeholder (m r : string) :
  placeholder m -> exists n, match_at (m ++ r) = Some n.
Proof.
  intros (body & -> & Hne & Hg).
  destruct (match_at_group body r Hne Hg) as [n Hn]; exists n.
  now rewrite !append_assoc.
Qed.

(** What the lazy quantifier takes is a text of the group and the two
    closing braces. *)
Lemma lazy_tail_body (r : string) (k : nat) :
  lazy_tail r = Some k ->
  exists w, take k r = (w ++ "}}")%string /\ group_text w = true.
Proof.
  revert k; induction r as [|c r IH]; intros k; cbn [lazy_tail]; [discriminate|].
  destruct (startsWith "}}" (String c r)) eqn:Hs.
  - intros [= <-]; apply RegexFacts.startsWith_2 in Hs as [r' Hr]; rewrite Hr.
    now exists "".
  - destruct (group_char c) eqn:Hc; [|discriminate].
    destruct (lazy_tail r) as [k'|]; [|discriminate].
    intros [= <-]; destruct (IH k' eq_refl) as (w & Hw & Hg).
    exists (String c w); cbn [take append group_text]; now rewrite Hw, Hc, Hg.
Qed.

Lemma match_at_is_placeholder (s : string) (n : nat) :
  match_at s = Some n -> placeholder (take n s).
Proof.
  unfold match_at.
  destruct (startsWith "{{" s) eqn:Hs; [|discriminate].
  apply RegexFacts.startsWith_2 in Hs as [r0 ->]; cbn [drop].
  destruct r0 as [|c r]; [discriminate|].
  destruct (group_char c) eqn:Hc; [|discriminate].
  destruct (lazy_tail r) as [k|] eqn:Hk; [|discriminate].
  intros [= <-]; destruct (lazy_tail_body _ _ Hk) as (w & Hw & Hg).
  exists (String c w); cbn [Nat.add take append group_text].
  rewrite Hw, Hc, Hg; repeat split; discriminate.
Qed.

Lemma drop_append_within (q : nat) (a W : string) :
  q <= String.length a -> drop q (a ++ W) = (drop q a ++ W)%string.
Proof.
  revert q; induction a as [|c a IH]; intros [|q] H;
    cbn [drop append String.length] in *; trivial.
  - inversion H.
  - apply IH; now apply le_S_n.
Qed.

Lemma drop_within (q : nat) (a : string) :
  q < String.length a -> exists c r, drop q a = String c r.
Proof.
  revert q; induction a as [|c a IH]; intros q H; [inversion H|].
  destruct q as [|q]; cbn [drop]; [now exists c, a|].
  apply IH; cbn [String.length] in H; lia.
Qed.

Lemma substitute_from_drop (txt : string -> string) (k : nat) (s : string) :
  substitute_from txt k s = substitute_from txt 0 (drop k s).
Proof.
  revert k; induction s as [|c r IH]; intros [|k]; cbn [substitute_from drop]; auto.
Qed.

Lemma substitute_upto_drop (txt : string -> string) (k j : nat) (s : string) :
  substitute_upto txt k j s = substitute_upto txt k 0 (drop j s).
Proof.
  revert j; induction s as [|c r IH]; intros [|j]; cbn [substitute_upto drop]; auto.
Qed.

(** The partition of [ScanFacts.scan_partition], with what the scan shows
    of the texts between the matches: the expression matches at none of
    their positions in the scanned text.  The one-pass readings are the
    partition with the texts of the values in the place of the matches. *)
Lemma scan_partition_quiet (n : nat) (s : string) :
  String.length s <= n ->
  exists first rest,
    map fst rest = str_match s /\ weave first rest = s
    /\ quiet first (weave_rest rest) /\ quiet_rest rest
    /\ Forall (fun ma => placeholder (fst ma)) rest
    /\ (forall txt, substitute txt s = weave first (fill txt rest))
    /\ (forall txt k, substitute_upto txt k 0 s
                      = weave first (fill txt (firstn k rest) ++ skipn k rest)%list).
Proof.
  revert s; induction n as [|n IH]; intros s Hlen.
  - destruct s; [|inversion Hlen].
    exists "", []; repeat split; try constructor.
    + intros q Hq; inversion Hq.
    + now destruct k.
  - destruct s as [|c r].
    { exists "", []; repeat split; try constructor.
      - intros q Hq; inversion Hq.
      - now destruct k. }
    cbn [String.length] in Hlen; apply le_S_n in Hlen.
    destruct (match_at (String c r)) as [m|] eqn:Hm.
    + destruct (match_at_positive _ _ Hm) as [j ->].
      destruct (IH (drop (S j) (String c r)))
        as (first & rest & Hms & Hw & Hf & Hr & Hp & Hall & Hupto).
      { cbn [drop]; eapply Nat.le_trans; [apply length_drop | exact Hlen]. }
      assert (Hs : weave "" ((take (S j) (String c r), first) :: rest) = String c r).
      { unfold weave in *; cbn [weave_rest].
        change ("" ++ ?x)%string with x.
        rewrite Hw; apply ParameterFacts.take_drop. }
      exists "", ((take (S j) (String c r), first) :: rest).
      split; [cbn [map fst]; now rewrite Hms, (str_match_here _ _ Hm)|].
      split; [exact Hs|].
      split; [intros q Hq; inversion Hq|].
      split; [cbn [quiet_rest]; split; assumption|].
      split; [constructor; [cbn [fst]; now apply match_at_is_placeholder | exact Hp]|].
      split.
      * intros txt; unfold substitute; cbn [substitute_from]; rewrite Hm.
        cbn [Nat.sub]; rewrite Nat.sub_0_r, substitute_from_drop.
        change (drop j r) with (drop (S j) (String c r)).
        fold (substitute txt (drop (S j) (String c r))); rewrite Hall.
        reflexivity.
      * intros txt [|k].
        -- cbn [substitute_upto firstn skipn fill map app]; now rewrite Hs.
        -- cbn [substitute_upto]; rewrite Hm.
           cbn [Nat.sub]; rewrite Nat.sub_0_r, substitute_upto_drop.
           change (drop j r) with (drop (S j) (String c r)).
           rewrite Hupto; reflexivity.
    + destruct (IH r Hlen) as (first & rest & Hms & Hw & Hf & Hr & Hp & Hall & Hupto).
      exists (String c first), rest.
      split; [now rewrite Hms, (str_match_later _ _ Hm)|].
      split; [unfold weave in *; cbn [append]; now rewrite Hw|].
      split; [|split; [exact Hr|split; [exact Hp|split]]].
      * unfold weave in Hw.
        intros [|q] Hq; cbn [drop append].
        -- now rewrite Hw.
        -- apply Hf; cbn [String.length] in Hq; lia.
      * intros txt; unfold substitute; cbn [substitute_from]; rewrite Hm.
        fold (substitute txt r); rewrite Hall; reflexivity.
      * intros txt [|k].
        -- cbn [substitute_upto firstn skipn fill map app].
           unfold weave in *; cbn [append]; now rewrite Hw.
        -- cbn [substitute_upto]; rewrite Hm, Hupto; reflexivity.
Qed.

(** A text in which the expression matches nowhere holds no match. *)
Lemma quiet_test (a W : string) : quiet a W -> test a = false.
Proof.
  unfold test; induction a as [|c a IH]; intros Hq; [reflexivity|].
  cbn [exec].
  destruct (match_at (String c a)) as [n|] eqn:Hn.
  - apply (match_at_append _ W) in Hn.
    specialize (Hq 0 (Nat.lt_0_succ _)); cbn [drop] in Hq; congruence.
  - assert (Ha : quiet a W).
    { intros q Hlt; apply (Hq (S q)); cbn [String.length]; lia. }
    specialize (IH Ha); destruct (exec a); [discriminate | reflexivity].
Qed.

Lemma quiet_rest_test (rest : list (string * string)) :
  quiet_rest rest -> Forall (fun ma => test (snd ma) = false) rest.
Proof.
  induction rest as [|[m a] rest IH]; cbn [quiet_rest]; [constructor|].
  intros [Ha Hr]; constructor; [exact (quiet_test _ _ Ha) | exact (IH Hr)].
Qed.

Lemma sealed_append (X Y : string) : sealed X -> sealed Y -> sealed (X ++ Y).
Proof.
  intros HX HY m Hm Z q Hq.
  rewrite append_assoc.
  destruct (Nat.lt_ge_cases q (String.length X)) as [Hlt | Hge].
  - now apply HX.
  - replace q with (String.length X + (q - String.length X)) by lia.
    rewrite drop_app; apply HY; trivial.
    rewrite length_append in Hq; lia.
Qed.

(** A placeholder starts with a brace, so none starts in a text without. *)
Lemma sealed_brace_free (t : string) : char_free "{" t = true -> sealed t.
Proof.
  intros Ht m (body & -> & _ & _) Z q; revert q Ht.
  induction t as [|c t IH]; intros q Ht Hq; [inversion Hq|].
  cbn [char_free] in Ht; apply andb_true_iff in Ht as [Hc Ht].
  destruct q as [|q]; cbn [drop append].
  - cbn [startsWith]; apply negb_true_iff in Hc.
    now rewrite Ascii.eqb_sym, Hc.
  - apply IH; trivial; cbn [String.length] in Hq; lia.
Qed.

(** Nor in the text before a match: what starts like a placeholder there
    and runs into the match would itself have been matched, the braces of
    the match being characters of the group. *)
Lemma sealed_gap (a m' R : string) :
  placeholder m' -> quiet a (m' ++ R) -> sealed a.
Proof.
  intros Hm' Hq m Hm Z q Hlt.
  rewrite drop_append_within by lia.
  destruct (startsWith m (drop q a ++ Z)) eqn:Hs; [exfalso|reflexivity].
  specialize (Hq q Hlt); rewrite drop_append_within in Hq by lia.
  destruct (drop_within q a Hlt) as (c & u & Hu); rewrite Hu in *.
  apply startsWith_append_cases in Hs as [Hs | [Hs Hlen]].
  - apply startsWith_split in Hs as [u' Hu'].
    destruct (match_at_placeholder m u' Hm) as [n Hn].
    rewrite <- Hu' in Hn.
    apply (match_at_append _ (m' ++ R)) in Hn; congruence.
  - destruct Hm as (body & -> & Hne & Hg).
    destruct Hm' as (body' & -> & Hne' & Hg').
    cbn [append startsWith] in Hs.
    apply andb_true_iff in Hs as [Hc Hs]; apply Ascii.eqb_eq in Hc; subst c.
    destruct u as [|d w].
    + destruct (match_at_group (String "{" body') R) as [n Hn];
        [discriminate | cbn [group_text]; now rewrite Hg' |].
      rewrite !append_assoc in Hq; cbn [append] in Hq, Hn; congruence.
    + cbn [startsWith] in Hs.
      apply andb_true_iff in Hs as [Hd Hs]; apply Ascii.eqb_eq in Hd; subst d.
      destruct (match_at_group (w ++ "{{" ++ body') R) as [n Hn].
      * destruct w; discriminate.
      * rewrite group_text_append.
        rewrite (group_text_start w (body ++ "}}") Hs)
          by (rewrite group_text_append, Hg; reflexivity).
        cbn [append group_text]; now rewrite Hg'.
      * rewrite ?append_assoc in Hq, Hn; cbn [append] in Hq, Hn.
        rewrite ?append_assoc in Hq, Hn; cbn [append] in Hq, Hn; congruence.
Qed.

(** The first occurrence of [m] is not before the end of [X] when [m]
    starts at no position of [X]. *)
Lemma indexOf_past (m X W : string) :
  (forall q, q < String.length X -> startsWith m (drop q (X ++ W)) = false) ->
  indexOf m (X ++ W) = option_map (Nat.add (String.length X)) (indexOf m W).
Proof.
  induction X as [|c X IH]; intros H.
  - cbn [append String.length]; destruct (indexOf m W); reflexivity.
  - pose proof (H 0 (Nat.lt_0_succ _)) as H0; cbn [drop append] in H0.
    cbn [append indexOf String.length]; rewrite H0, IH.
    + destruct (indexOf m W); reflexivity.
    + intros q Hq; apply (H (S q)); cbn [String.length]; lia.
Qed.

(** [replace] puts the text in the place of the placeholder that follows a
    sealed text. *)
Lemma replace_sealed (P m t Z : string) :
  sealed P -> placeholder m -> char_free "$" t = true ->
  replace m t (P ++ m ++ Z) = (P ++ t ++ Z)%string.
Proof.
  intros HP Hm Ht.
  assert (Hi : indexOf m (P ++ m ++ Z) = Some (String.length P + 0)).
  { rewrite indexOf_past by (intros q Hq; now apply HP).
    now rewrite (indexOf_found_here _ _ (startsWith_self_append m Z)). }
  rewrite (replace_at _ _ _ _ Hi Ht), take_app.
  replace (String.length P + 0 + String.length m)
    with (String.length P + (String.length m + 0)) by lia.
  rewrite !drop_app; cbn [take drop]; now rewrite append_empty_r.
Qed.

(** After a sealed text, a text in which the expression matches nowhere
    adds no match. *)
Lemma quiet_after_sealed (P a : string) : sealed P -> quiet a "" -> quiet (P ++ a) "".
Proof.
  intros HP Ha q Hq.
  destruct (Nat.lt_ge_cases q (String.length P)) as [Hlt | Hge].
  - destruct (match_at (drop q ((P ++ a) ++ ""))) as [n|] eqn:Hn; [exfalso|reflexivity].
    pose proof (match_at_is_placeholder _ _ Hn) as Hm.
    pose proof (HP _ Hm (a ++ "")%string q Hlt) as Hs.
    rewrite <- append_assoc, startsWith_take in Hs; discriminate.
  - rewrite append_assoc.
    replace q with (String.length P + (q - String.length P)) by lia.
    rewrite drop_app; apply Ha.
    rewrite length_append in Hq; lia.
Qed.

(** Once every placeholder is replaced by a text without opening brace,
    the expression matches nowhere in the text. *)
Lemma fill_leaves_no_match (txt : string -> string) (rest : list (string * string)) :
  forall (P m a : string),
    sealed P -> quiet_rest ((m, a) :: rest) ->
    Forall (fun ma => placeholder (fst ma)) rest ->
    Forall (fun ma => char_free "{" (txt (fst ma)) = true) ((m, a) :: rest) ->
    quiet (P ++ weave_rest (fill txt ((m, a) :: rest))) "".
Proof.
  induction rest as [|[m2 a2] rest IH]; intros P m a HP [Hqa Hq] Hpl Hb;
    inversion Hb as [|? ? Hbm Hb']; subst; cbn [fst] in Hbm.
  - cbn [fill map weave_rest fst snd weave_rest] in *.
    rewrite append_empty_r, <- append_assoc.
    apply quiet_after_sealed; [|exact Hqa].
    apply sealed_append; [exact HP | now apply sealed_brace_free].
  - inversion Hpl as [|? ? Hm2 Hpl']; subst; cbn [fst] in Hm2.
    cbn [weave_rest] in Hqa.
    assert (HP' : sealed (P ++ txt m ++ a)).
    { apply sealed_append; [exact HP|].
      apply sealed_append; [now apply sealed_brace_free|].
      exact (sealed_gap a m2 _ Hm2 Hqa). }
    specialize (IH _ m2 a2 HP' Hq Hpl' Hb').
    unfold fill in *; cbn [map weave_rest fst snd] in *.
    now rewrite !append_assoc in IH.
Qed.

Section Fold.
Context {E : Env}.
Variables (e : bool) (ctx : value) (txt : string -> string) (multi : Prop).

(** The fold over the matches [pre] of a text, the matches [post] left
    alone: each step fills the placeholder it was called for.  [multi]
    stands for a text with several placeholders; only then must the texts of
    the values be free of opening braces. *)
Lemma fold_matches_fill (n : nat) (pre post : list (string * string)) :
  forall P : string,
    sealed P -> quiet_rest (pre ++ post)%list ->
    Forall (fun ma => placeholder (fst ma)) pre ->
    Forall (fun ma => exists v, resolve e ctx (fst ma) = Ok v /\ scalar v = true
                                /\ ToString v = Ok (txt (fst ma))
                                /\ char_free "$" (txt (fst ma)) = true
                                /\ (multi -> char_free "{" (txt (fst ma)) = true)) pre ->
    (2 <= List.length pre -> multi) ->
    (n = 1 -> List.length pre <= 1
              /\ startsWith "{{" (P ++ weave_rest (pre ++ post)%list)
                 && endsWith "}}" (P ++ weave_rest (pre ++ post)%list) = false) ->
    fold_matches e n ctx (map fst pre) (VString (P ++ weave_rest (pre ++ post)%list))
    = Ok (VString (P ++ weave_rest (fill txt pre ++ post)%list)).
Proof.
  induction pre as [|[m a] pre IH]; intros P HP Hq Hpl Hv Hmulti Hn; [reflexivity|].
  inversion Hpl as [|? ? Hm Hpl']; subst.
  inversion Hv as [|? ? (v & Hr & Hs & Ht & Hd & Hb) Hv']; subst.
  cbn [app quiet_rest] in Hq; destruct Hq as [Hqa Hq'].
  unfold fill; cbn [app map fst snd weave_rest] in *.
  rewrite fold_matches_cons, step_resolve, Hr; cbn [bind].
  rewrite splice_replace;
    [| exact Hs
     | intros H1; destruct (Hn H1) as [_ Hw]; eexists; split; [reflexivity | exact Hw]].
  cbn [string_method].
  rewrite (String_replace_scalar _ _ _ _ Hs Ht).
  rewrite (replace_sealed P m (txt m) (a ++ weave_rest (pre ++ post)%list) HP Hm Hd).
  cbn [bind].
  destruct pre as [|[m2 a2] pre2]; [reflexivity|].
  assert (Hmu : multi) by (apply Hmulti; cbn [List.length]; lia).
  replace (P ++ txt m ++ a ++ weave_rest (((m2, a2) :: pre2) ++ post)%list)%string
    with ((P ++ txt m ++ a) ++ weave_rest (((m2, a2) :: pre2) ++ post)%list)%string
    by (now rewrite !append_assoc).
  rewrite IH; trivial.
  - unfold fill; now rewrite !append_assoc.
  - apply sealed_append; [exact HP|].
    apply sealed_append; [apply sealed_brace_free; exact (Hb Hmu)|].
    inversion Hpl' as [|? ? Hm2 _]; subst.
    cbn [app weave_rest] in Hqa.
    exact (sealed_gap a m2 _ Hm2 Hqa).
  - intros H1; destruct (Hn H1) as [Hlen _]; cbn [List.length] in Hlen; lia.
Qed.

End Fold.

Lemma substitute_upto_all (txt : string -> string) (k : nat) (s : string) :
  List.length (str_match s) <= k -> substitute_upto txt k 0 s = substitute txt s.
Proof.
  intros Hk.
  destruct (scan_partition_quiet (String.length s) s (le_n _))
    as (first & rest & Hms & _ & _ & _ & _ & Hall & Hupto).
  rewrite <- Hms, length_map in Hk.
  now rewrite Hall, Hupto, (firstn_all2 _ Hk), (skipn_all2 _ Hk), app_nil_r.
Qed.

(** The accumulator after the first [k] steps of the fold of [parseString]:
    the first [k] placeholders are replaced, the others stand as they were. *)
Lemma fold_matches_upto {E : Env} (s : string) (e : bool) (ctx : value)
    (txt : string -> string) (multi : Prop) (k : nat) :
  (List.length (str_match s) = 1 -> startsWith "{{" s && endsWith "}}" s = false) ->
  (2 <= List.length (str_match s) -> multi) ->
  (forall m, In m (firstn k (str_match s)) ->
     exists v, resolve e ctx m = Ok v /\ scalar v = true
               /\ ToString v = Ok (txt m)
               /\ char_free "$" (txt m) = true
               /\ (multi -> char_free "{" (txt m) = true)) ->
  fold_matches e (List.length (str_match s)) ctx (firstn k (str_match s)) (VString s)
  = Ok (VString (substitute_upto txt k 0 s)).
Proof.
  intros Hone Hmulti Hval.
  destruct (scan_partition_quiet (String.length s) s (le_n _))
    as (first & rest & Hms & Hw & Hf & Hr & Hp & _ & Hupto).
  rewrite Hupto; unfold weave in *.
  rewrite <- Hms, firstn_map in Hval |- *.
  rewrite <- Hms, length_map in Hone, Hmulti.
  rewrite length_map.
  pose proof (firstn_skipn k rest) as Hsplit.
  remember (firstn k rest) as pre eqn:Epre; remember (skipn k rest) as post eqn:Epost.
  clear Epre Epost Hupto; subst rest.
  rewrite <- Hw.
  apply Forall_app in Hp as [Hp _].
  destruct pre as [|[m a] pre'] eqn:Hpre; [reflexivity|]; rewrite <- Hpre in *.
  apply (fold_matches_fill e ctx txt multi); trivial.
  - rewrite Hpre in Hf, Hp; cbn [app weave_rest] in Hf.
    inversion Hp as [|? ? Hm _]; subst.
    exact (sealed_gap first m _ Hm Hf).
  - apply Forall_forall; intros ma Hin; apply Hval; now apply in_map.
  - intros H2; apply Hmulti; rewrite length_app; lia.
  - intros H1; split; [rewrite length_app in H1; lia|].
    rewrite Hw; exact (Hone H1).
Qed.

(** The render of a string, every placeholder resolving to a scalar. *)
Lemma render_substitute {E : Env} (s : string) (e : bool) (ctx : value)
    (txt : string -> string) (multi : Prop) :
  (List.length (str_match s) = 1 -> startsWith "{{" s && endsWith "}}" s = false) ->
  (2 <= List.length (str_match s) -> multi) ->
  (forall m, In m (str_match s) ->
     exists v, resolve e (context_or_empty ctx) m = Ok v /\ scalar v = true
               /\ ToString v = Ok (txt m)
               /\ char_free "$" (txt m) = true
               /\ (multi -> char_free "{" (txt m) = true)) ->
  fn (parseString s e) ctx = Ok (VString (substitute txt s)).
Proof.
  intros Hone Hmulti Hval.
  rewrite parseString_fn, <- (substitute_upto_all txt (List.length (str_match s)) s (le_n _)).
  rewrite <- (firstn_all (str_match s)) at 2.
  apply (fold_matches_upto s e _ txt multi); trivial.
  now rewrite firstn_all.
Qed.

(** With the texts of the values free of opening braces, no placeholder is
    left in the string once every placeholder is replaced. *)
Lemma substitute_no_match (txt : string -> string) (s : string) :
  (forall m, In m (str_match s) -> char_free "{" (txt m) = true) ->
  test (substitute txt s) = false.
Proof.
  intros Hb.
  destruct (scan_partition_quiet (String.length s) s (le_n _))
    as (first & rest & Hms & Hw & Hf & Hr & Hp & Hall & _).
  rewrite Hall; unfold weave.
  assert (Hb' : Forall (fun ma => char_free "{" (txt (fst ma)) = true) rest).
  { apply Forall_forall; intros ma Hin; apply Hb; rewrite <- Hms; now apply in_map. }
  destruct rest as [|[m a] rest'].
  - cbn [fill map weave_rest] in *; rewrite append_empty_r.
    exact (quiet_test _ _ Hf).
  - apply (quiet_test _ "").
    inversion Hp as [|? ? Hm Hp']; subst; cbn [fst] in Hm.
    cbn [weave_rest] in Hf.
    apply fill_leaves_no_match; trivial.
    exact (sealed_gap first m _ Hm Hf).
Qed.

End FillFacts.

(** * What a render reads of the context *)

Section Dependence.
Context {E : Env}.
Local Open Scope list_scope.

Lemma context_or_empty_idem (c : value) :
  context_or_empty (context_or_empty c) = context_or_empty c.
Proof. unfold context_or_empty; destruct (truthy c) eqn:Hc; [now rewrite Hc | reflexivity]. Qed.

Lemma reduce_ext {A B : Type} (f g : B -> A -> outcome B) (l : list A) (acc : B) :
  (forall x, In x l -> forall a, f a x = g a x) -> reduce f l acc = reduce g l acc.
Proof.
  revert acc; induction l as [|x l IH]; intros acc H; cbn [reduce]; trivial.
  rewrite (H x (or_introl eq_refl)).
  destruct (g acc x); cbn [bind]; trivial.
  apply IH; intros y Hy; apply H; now right.
Qed.

(** Two folds over the same matches agree when the lookups agree. *)
Lemma fold_matches_ext (e1 e2 : bool) (n : nat) (c1 c2 : value) (ms : list string)
    (acc : value) :
  (forall m, In m ms -> lookup e1 c1 (Parameter' m) = lookup e2 c2 (Parameter' m)) ->
  fold_matches e1 n c1 ms acc = fold_matches e2 n c2 ms acc.
Proof.
  intros H; unfold fold_matches; rewrite combine_map_self.
  apply reduce_ext; intros mp Hmp a.
  apply in_map_iff in Hmp as (m & <- & Hm).
  unfold step; cbn [fst snd]; now rewrite (H m Hm).
Qed.

(** Two renders of a value agree when the lookups of its placeholders do. *)
Lemma render_ext (v : value) (e1 e2 : bool) (c1 c2 : value) :
  (forall p, In p (traversal_parameters v) ->
             lookup e1 (context_or_empty c1) p = lookup e2 (context_or_empty c2) p) ->
  fn (parse v e1) c1 = fn (parse v e2) c2.
Proof.
  induction v as [| | b | n | s | t | xs IH | props IH | body] using value_nested_ind;
    intros H; try reflexivity.
  - rewrite !parse_string, !parseString_fn.
    apply fold_matches_ext; intros m Hm; apply H.
    cbn [traversal_parameters]; now apply in_map.
  - rewrite !parse_array; cbn [arrayTemplate Template fn].
    replace (map_templates (map (fun el => parse el e1) xs) c1)
      with (map_templates (map (fun el => parse el e2) xs) c2); [reflexivity|].
    cbn [traversal_parameters] in H.
    induction IH as [|x xs Hx _ IHxs]; cbn [map map_templates]; [reflexivity|].
    rewrite <- (Hx (fun p Hp => H p (in_or_app _ _ _ (or_introl Hp)))).
    rewrite IHxs; [reflexivity|].
    intros p Hp; apply H; cbn [flat_map]; apply in_or_app; now right.
  - rewrite !parse_object; cbn [objectTemplate Template fn].
    set (mk1 := fun kv : string * value => (parseString (fst kv) e1, parse (snd kv) e1)).
    set (mk2 := fun kv : string * value => (parseString (fst kv) e2, parse (snd kv) e2)).
    enough (Hgen : forall acc, reduce (assign_child c1) (map mk1 props) acc
                               = reduce (assign_child c2) (map mk2 props) acc)
      by now rewrite Hgen.
    cbn [traversal_parameters] in H.
    induction IH as [|[k x] props Hx _ IHp]; intros acc; cbn [map reduce]; [reflexivity|].
    cbn [fst snd flat_map] in *.
    assert (Hk : fn (parseString k e1) c1 = fn (parseString k e2) c2).
    { rewrite !parseString_fn; apply fold_matches_ext; intros m Hm; apply H.
      apply in_or_app; left; apply in_or_app; right; now apply in_map. }
    assert (Hv : fn (parse x e1) c1 = fn (parse x e2) c2).
    { apply Hx; intros p Hp; apply H; apply in_or_app; left; apply in_or_app; now left. }
    unfold assign_child at 1 3; subst mk1 mk2; cbn [fst snd].
    rewrite Hk, Hv.
    destruct (fn (parseString k e2) c2) as [kv| |]; cbn [bind]; trivial.
    destruct (fn (parse x e2) c2) as [vv| |]; cbn [bind]; trivial.
    destruct (ToString kv) as [name| |]; cbn [bind]; trivial.
    destruct (Props.set acc name vv) as [acc'| |]; cbn [bind]; trivial.
    apply IHp; intros p Hp; apply H; apply in_or_app; now right.
Qed.

(** Every key of the traversal is the key of a parameter that was kept. *)
Lemma dedupe_from_covers {A : Type} (h : A -> string) (s : list string) (l : list A) (p : A) :
  In p l -> seen_in (h p) s = true \/ exists q, In q (dedupe_from h s l) /\ h q = h p.
Proof.
  revert s; induction l as [|x l IH]; intros s; cbn [In dedupe_from]; [tauto|].
  intros [-> | Hin].
  - destruct (seen_in (h p) s) eqn:Hs; [now left|].
    right; exists p; split; [now left | reflexivity].
  - destruct (seen_in (h x) s) eqn:Hs; [now apply IH|].
    destruct (IH (h x :: s) Hin) as [Hseen | (q & Hq & Hk)].
    + rewrite seen_in_cons in Hseen.
      destruct (String.eqb_spec (h p) (h x)) as [Heq|_].
      * right; exists x; split; [now left | now symmetry].
      * now left.
    + right; exists q; split; [now right | assumption].
Qed.

Lemma parameters_cover (v : value) (e : bool) (p : Parameter_t) :
  In p (traversal_parameters v) ->
  exists q, In q (parameters (parse v e)) /\ key q = key p.
Proof.
  intros Hin; rewrite parameters_parse.
  destruct (dedupe_from_covers key [] _ _ Hin) as [H | H]; [discriminate | exact H].
Qed.

End Dependence.

(** * The object a render builds *)

Module PropsFacts.
Import Props.
Local Open Scope list_scope.



Lemma keys_insert_index (n : N) (k x : string) (v : value) (ps : list (string * value)) :
  In x (map fst (insert_index n k v ps)) <-> x = k \/ In x (map fst ps).
Proof.
  induction ps as [|[k' v'] ps IH]; cbn [insert_index map fst In].
  - intuition.
  - destruct (array_index k') as [n'|]; [destruct (N.ltb n' n)|];
      cbn [map fst In]; rewrite ?IH; intuition.
Qed.

Lemma keys_insert (k x : string) (v : value) (ps : list (string * value)) :
  In x (map fst (insert k v ps)) <-> x = k \/ In x (map fst ps).
Proof.
  unfold insert; destruct (array_index k); [apply keys_insert_index|].
  rewrite map_app, in_app_iff; cbn [map fst In]; intuition.
Qed.






Lemma own_update (k name : string) (v : value) (ps : list (string * value)) :
  own name (update k v ps)
  = if String.eqb name k then option_map (fun _ => v) (own k ps) else own name ps.
Proof.
  induction ps as [|[k' v'] ps IH]; cbn [update own option_map].
  - now destruct (String.eqb name k).
  - destruct (String.eqb_spec k k') as [->|Hne]; cbn [own].
    + destruct (String.eqb name k'); reflexivity.
    + rewrite IH.
      destruct (String.eqb_spec name k) as [->|Hnk].
      * apply String.eqb_neq in Hne; now rewrite Hne.
      * reflexivity.
Qed.

Lemma own_insert_index (n : N) (k name : string) (v : value) (ps : list (string * value)) :
  own k ps = None ->
  own name (insert_index n k v ps) = if String.eqb name k then Some v else own name ps.
Proof.
  induction ps as [|[k' v'] ps IH]; cbn [insert_index own]; intros Hk.
  - now destruct (String.eqb name k).
  - destruct (String.eqb_spec k k') as [->|Hne]; [discriminate|].
    assert (Hhere : own name ((k, v) :: (k', v') :: ps)
                    = if String.eqb name k then Some v else own name ((k', v') :: ps))
      by reflexivity.
    destruct (array_index k') as [n'|]; [destruct (N.ltb n' n)|]; trivial.
    cbn [own]; rewrite (IH Hk).
    destruct (String.eqb_spec name k') as [->|_]; [|reflexivity].
    apply not_eq_sym, String.eqb_neq in Hne; now rewrite Hne.
Qed.

Lemma own_app_absent (name k : string) (v : value) (ps : list (string * value)) :
  own k ps = None ->
  own name (ps ++ [(k, v)]) = if String.eqb name k then Some v else own name ps.
Proof.
  induction ps as [|[k' v'] ps IH]; cbn [app own]; intros Hk.
  - now destruct (String.eqb name k).
  - destruct (String.eqb_spec k k') as [->|Hne]; [discriminate|].
    rewrite (IH Hk).
    destruct (String.eqb_spec name k') as [->|_]; [|reflexivity].
    apply not_eq_sym, String.eqb_neq in Hne; now rewrite Hne.
Qed.

Lemma own_insert (k name : string) (v : value) (ps : list (string * value)) :
  own k ps = None ->
  own name (insert k v ps) = if String.eqb name k then Some v else own name ps.
Proof.
  intros Hk; unfold insert; destruct (array_index k);
    [now apply own_insert_index | now apply own_app_absent].
Qed.


(** The assignment and the lookup: the property assigned holds the value,
    every other property is as it was. *)
Lemma set_then_own (ps ps' : list (string * value)) (k : string) (v : value) :
  set ps k v = Ok ps' ->
  (k <> "__proto__" -> own k ps' = Some v)
  /\ (forall name, name <> k -> own name ps' = own name ps).
Proof.
  unfold set; intros H.
  destruct (own k ps) as [old|] eqn:Hk.
  - injection H as <-; split.
    + intros _; now rewrite own_update, String.eqb_refl, Hk.
    + intros name Hn; rewrite own_update.
      apply String.eqb_neq in Hn; now rewrite Hn.
  - destruct (String.eqb_spec k "__proto__") as [->|Hne].
    + destruct (typeof v); try discriminate; injection H as <-;
        (split; [intros Hc; now contradiction Hc | reflexivity]).
    + injection H as <-; split.
      * intros _; now rewrite (own_insert _ _ _ _ Hk), String.eqb_refl.
      * intros name Hn; rewrite (own_insert _ _ _ _ Hk).
        apply String.eqb_neq in Hn; now rewrite Hn.
Qed.

End PropsFacts.

Section ObjectRender.
Context {E : Env}.
Local Open Scope list_scope.

(** A step of the fold of [parseObject], taken apart. *)
Lemma assign_child_inv (ctx : value) (acc acc' : list (string * value))
    (child : Template_t * Template_t) :
  assign_child ctx acc child = Ok acc' ->
  exists k v name,
    fn (fst child) ctx = Ok k /\ fn (snd child) ctx = Ok v
    /\ ToString k = Ok name /\ Props.set acc name v = Ok acc'.
Proof.
  unfold assign_child.
  destruct (fn (fst child) ctx) as [k| |]; cbn [bind]; try discriminate.
  destruct (fn (snd child) ctx) as [v| |]; cbn [bind]; try discriminate.
  destruct (ToString k) as [name| |] eqn:Hname; cbn [bind]; try discriminate.
  intros H; exists k, v, name; repeat split; assumption.
Qed.


Lemma reduce_assign_keeps (ctx : value) (name : string) (cs : list (Template_t * Template_t))
    (acc ps : list (string * value)) :
  reduce (assign_child ctx) cs acc = Ok ps ->
  Forall (fun c => forall k' name', fn (fst c) ctx = Ok k' -> ToString k' = Ok name' ->
                                    name' <> name) cs ->
  own name ps = own name acc.
Proof.
  revert acc; induction cs as [|c cs IH]; intros acc; cbn [reduce].
  - now intros [= <-] _.
  - destruct (assign_child ctx acc c) as [acc'| |] eqn:Hc; cbn [bind]; try discriminate.
    intros Hr Hall; inversion Hall as [|? ? Hhere Hrest]; subst.
    apply assign_child_inv in Hc as (k & v & nm & Hk & _ & Hnm & Hset).
    rewrite (IH acc' Hr Hrest).
    apply (proj2 (PropsFacts.set_then_own _ _ _ _ Hset)).
    apply not_eq_sym, (Hhere k nm Hk Hnm).
Qed.

End ObjectRender.

(** * The claims *)

Import JsString JsStringFacts.

(** C1 at the input [{"__proto__": 5}], an object as [JSON.parse] builds it:
    the value holds no placeholder and the template has no parameters, but
    the render is the empty object.  The assignment
    [newObject["__proto__"] = 5] of [parseObject] reaches the accessor of
    [Object.prototype], which ignores a number, and the key is lost. *)
Theorem proto_key_not_rebuilt :
  forall (E : Env) (e : bool) (ctx : value),
    let v := VObject [("__proto__", VNumber 5)] in
    placeholder_free v = true
    /\ well_formed v = true
    /\ parameters (parse v e) = []
    /\ fn (parse v e) ctx = Ok (VObject [])
    /\ fn (parse v e) ctx <> Ok v.
Proof. intros E e ctx v; repeat split; try reflexivity. discriminate. Qed.




(** C3.  When the path resolves to [undefined] or [null] the default-value
    source is used: verbatim, as a string, with [evalDefaults] off; with
    [evalDefaults] on it is the value of [safeEval], and when [safeEval]
    throws the raw source is kept and the placeholder renders as with
    [evalDefaults] off.  [parse("{{a:hello}}")({})] is [hello];
    [parse("{{a:1+1}}", false)({})] is the string [1+1] and
    [parse("{{a:1+1}}", true)({})] the number 2. *)
Theorem default_source_raw_or_evaluated :
  (forall (E : Env) (ctx : value) (p : Parameter_t) (d : string),
      nullish (get ctx (key p)) = true -> defaultValue p = Some d ->
      lookup false ctx p = VString d
      /\ (forall v, safeEval (Some d) ctx = Some v -> lookup true ctx p = v)
      /\ (safeEval (Some d) ctx = None -> lookup true ctx p = VString d))
  /\ (forall (E : Env) (ctx : value) (p : Parameter_t),
      safeEval (defaultValue p) ctx = None ->
      lookup true ctx p = lookup false ctx p
      /\ forall n acc m, step true n ctx acc (m, p) = step false n ctx acc (m, p))
  /\ Packages.render (VString "{{a:hello}}") false (VObject []) = Ok (VString "hello")
  /\ Packages.render (VString "{{a:1+1}}") false (VObject []) = Ok (VString "1+1")
  /\ Packages.render (VString "{{a:1+1}}") true (VObject []) = Ok (VNumber 2)
  /\ Packages.render (VString "{{a:1+x}}") true (VObject []) = Ok (VString "1+x").
Proof.
  split; [|split; [|repeat split; reflexivity]].
  - intros E ctx p d Hn Hd; unfold lookup; rewrite Hn, Hd.
    repeat split.
    + now intros v ->.
    + now intros ->.
  - intros E ctx p Hf.
    assert (H : lookup true ctx p = lookup false ctx p)
      by (unfold lookup; rewrite Hf; reflexivity).
    split; [exact H|].
    intros n acc m; unfold step; cbn [snd fst]; now rewrite H.
Qed.

Lemma default_source_witness :
  @lookup Packages.env false (VObject []) (Parameter' "{{a:hello}}") = VString "hello".
Proof.
  exact (proj1 (proj1 default_source_raw_or_evaluated Packages.env (VObject [])
                  (Parameter' "{{a:hello}}") "hello" eq_refl eq_refl)).
Defined.

(** C4, as amended.  A resolved value of object type (arrays and dates
    included) is what the fold step returns, whatever the accumulator held;
    the fold then goes on with the remaining matches, so the object is the
    result of the render when its placeholder is the last match and no
    earlier step threw.  [parse("{{obj}}")({obj: {n: 1}})] is the object
    itself. *)
Theorem object_value_replaces_accumulator :
  (forall (E : Env) (e : bool) (n : nat) (ctx acc : value) (m : string) (p : Parameter_t)
          (v : value),
      invoke (lookup e ctx p) = Ok v -> typeof v = TyObject ->
      step e n ctx acc (m, p) = Ok v)
  /\ (forall (E : Env) (str : string) (e : bool) (ctx : value) (pre : list string)
             (m : string) (acc v : value),
      Regex.str_match str = (pre ++ [m])%list ->
      fold_matches e (List.length (Regex.str_match str)) (context_or_empty ctx) pre
        (VString str) = Ok acc ->
      resolve e (context_or_empty ctx) m = Ok v -> typeof v = TyObject ->
      fn (parseString str e) ctx = Ok v)
  /\ Packages.render (VString "{{obj}}") false (VObject [("obj", VObject [("n", VNumber 1)])])
     = Ok (VObject [("n", VNumber 1)]).
Proof.
  split; [|split; [|reflexivity]].
  - intros E e n ctx acc m p v Hv Ht.
    unfold step; cbn [snd fst]; rewrite Hv; cbn [bind].
    now apply splice_object.
  - intros E str e ctx pre m acc v Hm Hpre Hv Ht.
    rewrite parseString_fn.
    set (n := List.length (Regex.str_match str)) in *.
    rewrite Hm, fold_matches_app, Hpre; cbn [bind].
    rewrite fold_matches_cons, step_resolve, Hv; cbn [bind].
    now rewrite splice_object.
Qed.

Lemma object_value_witness :
  fn (@parseString Packages.env "{{obj}}" false) (VObject [("obj", VArray [VNumber 1])])
  = Ok (VArray [VNumber 1]).
Proof.
  exact (proj1 (proj2 object_value_replaces_accumulator) Packages.env "{{obj}}" false
           (VObject [("obj", VArray [VNumber 1])]) [] "{{obj}}" (VString "{{obj}}")
           (VArray [VNumber 1]) eq_refl eq_refl eq_refl eq_refl).
Defined.

(** C4, as stated, fails: in ["{{obj}} {{b}}"] the first placeholder resolves
    to the object [{n: 1}], yet the fold goes on to the second one; the
    render is [null] when [b] is missing and throws when [b] is 5. *)
Lemma object_value_does_not_end_the_fold :
  let ctx := VObject [("obj", VObject [("n", VNumber 1)])] in
  let ctx5 := VObject [("obj", VObject [("n", VNumber 1)]); ("b", VNumber 5)] in
  @resolve Packages.env false ctx "{{obj}}" = Ok (VObject [("n", VNumber 1)])
  /\ Packages.render (VString "{{obj}} {{b}}") false ctx = Ok VNull
  /\ Packages.render (VString "{{obj}} {{b}}") false ctx <> Ok (VObject [("n", VNumber 1)])
  /\ Packages.render (VString "{{obj}} {{b}}") false ctx5 = Throw TypeError.
Proof. repeat split; try reflexivity. discriminate. Qed.

(** C5.  A placeholder whose path is missing ([get] answers [undefined]):
    without a default the step returns [null] (with [evalDefaults] on the
    evaluator is called on the absent source, and is taken to fail or to
    answer nothing on it); with a default the value is the default, raw or
    evaluated.  The lookup raises nothing: a step of such a placeholder can
    only throw in the call of a function the evaluated default produced. *)
Theorem missing_path_null_or_default :
  forall (E : Env) (e : bool) (ctx : value) (p : Parameter_t),
    get ctx (key p) = VUndefined ->
    (defaultValue p = None ->
     (e = true -> match safeEval None ctx with Some v => nullish v = true | None => True end) ->
     forall n acc m, step e n ctx acc (m, p) = Ok VNull)
    /\ (forall d, defaultValue p = Some d ->
        lookup false ctx p = VString d
        /\ lookup true ctx p
           = match safeEval (Some d) ctx with Some v => v | None => VString d end
        /\ invoke (lookup false ctx p) = Ok (VString d)
        /\ (forall err, invoke (lookup e ctx p) = Throw err ->
            e = true /\ safeEval (Some d) ctx = Some (VFunction None) /\ err = Thrown)).
Proof.
  intros E e ctx p Hg; split.
  - intros Hd He n acc m.
    unfold step, lookup; cbn [snd fst]; rewrite Hg, Hd; cbn [nullish].
    destruct e.
    + specialize (He eq_refl).
      destruct (safeEval None ctx) as [v|]; [|reflexivity].
      destruct v; try discriminate; reflexivity.
    + reflexivity.
  - intros d Hd; unfold lookup; rewrite Hg, Hd; cbn [nullish].
    split; [reflexivity|]. split; [reflexivity|]. split; [reflexivity|].
    intros err Herr.
    destruct e; [|discriminate].
    destruct (safeEval (Some d) ctx) as [v|]; [|discriminate].
    destruct v as [| | | | | | | |[r|]]; try discriminate.
    cbn in Herr; injection Herr as <-.
    repeat split; reflexivity.
Qed.

Lemma missing_path_witness :
  (forall n acc m, @step Packages.env true n (VObject []) acc (m, Parameter' "{{a}}") = Ok VNull)
  /\ @lookup Packages.env false (VObject []) (Parameter' "{{a:x}}") = VString "x".
Proof.
  split.
  - exact (proj1 (missing_path_null_or_default Packages.env true (VObject [])
                    (Parameter' "{{a}}") eq_refl) eq_refl (fun _ => I)).
  - exact (proj1 (proj2 (missing_path_null_or_default Packages.env false (VObject [])
                           (Parameter' "{{a:x}}") eq_refl) "x" eq_refl)).
Defined.

(** C6, as amended.  The text between the delimiters is trimmed and split at
    its first colon only.  The left part is the key as it stands: it is not
    trimmed again, so white space before the colon stays in the key (it has
    none at its start, the whole text having been trimmed); the right part,
    as it stands, is the default-value source; without a colon the parameter
    has no [defaultValue]. *)
Theorem Parameter_splits_at_first_colon :
  forall m : string,
    let inner := trim (substr 2 (String.length m - 4) m) in
    (forall k d : string,
        inner = (k ++ ":" ++ d)%string -> indexOf ":" k = None ->
        Parameter' m = {| key := k; defaultValue := Some d |})
    /\ (indexOf ":" inner = None -> Parameter' m = {| key := inner; defaultValue := None |})
    /\ trimStart (key (Parameter' m)) = key (Parameter' m).
Proof.
  intros m inner; repeat split.
  - intros k d Hk Hc.
    unfold Parameter'; fold inner; rewrite Hk.
    change (k ++ ":" ++ d)%string with (k ++ String ":" d)%string.
    rewrite (indexOf_char_split ":" k d Hc).
    unfold substr, substr_from; cbn [drop].
    f_equal.
    + rewrite <- (Nat.add_0_r (String.length k)), take_app.
      cbn [take]; apply append_empty_r.
    + now rewrite drop_app.
  - intros Hc; unfold Parameter'; fold inner; now rewrite Hc.
  - unfold Parameter'; fold inner.
    assert (Hhead : forall i, trimStart (take i inner) = take i inner).
    { intros i; subst inner.
      destruct (trim_head (substr 2 (String.length m - 4) m)) as [-> | (c & r & -> & Hc)].
      - now destruct i.
      - destruct i; cbn [take trimStart]; [reflexivity | now rewrite Hc]. }
    destruct (indexOf ":" inner) as [i|] eqn:Hi; cbn [key].
    + unfold substr; cbn [drop]; apply Hhead.
    + subst inner.
      destruct (trim_head (substr 2 (String.length m - 4) m)) as [-> | (c & r & -> & Hc)];
        cbn [trimStart]; [reflexivity | now rewrite Hc].
Qed.

Lemma Parameter_split_witness :
  Parameter' "{{ user.name : John: Doe }}"
  = {| key := "user.name "; defaultValue := Some " John: Doe" |}.
Proof.
  exact (proj1 (Parameter_splits_at_first_colon "{{ user.name : John: Doe }}")
           "user.name " " John: Doe" eq_refl eq_refl).
Defined.

(** C6, as stated, fails: the tokenizer matches [{{a :b}}] and the key of its
    parameter is the letter followed by a space, not its trimmed form. *)
Lemma key_keeps_space_before_colon :
  Regex.str_match "{{a :b}}" = ["{{a :b}}"]
  /\ Parameter' "{{a :b}}" = {| key := "a "; defaultValue := Some "b" |}
  /\ key (Parameter' "{{a :b}}") <> trim (key (Parameter' "{{a :b}}")).
Proof. repeat split; try reflexivity. discriminate. Qed.

(** C7.  The [parameters] of a compiled template are the parameters met in
    document traversal order (for an object, key by key in the order of its
    keys, those of the value before those of the key; for an array, element
    by element), deduplicated by key: every parameter kept is the first of
    the traversal with its key, and no key is kept twice.
    [parse("{{a}}-{{a:def}}").parameters] has the one entry for [a], without
    default. *)
Theorem parameters_traversal_order_first_kept :
  (forall (E : Env) (v : value) (e : bool),
      parameters (parse v e) = dedupe (traversal_parameters v) key)
  /\ (forall (E : Env) (v : value) (e : bool) (p : Parameter_t),
      In p (parameters (parse v e)) ->
      exists l1 l2, traversal_parameters v = (l1 ++ p :: l2)%list /\ ~ In (key p) (map key l1))
  /\ (forall (E : Env) (v : value) (e : bool), NoDup (map key (parameters (parse v e))))
  /\ Packages.parameters_of (VString "{{a}}-{{a:def}}") false
     = [{| key := "a"; defaultValue := None |}]
  /\ Packages.parameters_of (VObject [("{{k}}", VString "{{v}}")]) false
     = [{| key := "v"; defaultValue := None |}; {| key := "k"; defaultValue := None |}]
  /\ Packages.parameters_of
       (VArray [VObject [("a", VString "{{x}}")]; VString "{{y}} {{x:1}}"]) false
     = [{| key := "x"; defaultValue := None |}; {| key := "y"; defaultValue := None |}].
Proof.
  split; [|split; [|split; [|repeat split; reflexivity]]].
  - intros; apply parameters_parse.
  - intros E v e p Hin; rewrite parameters_parse in Hin.
    now apply dedupe_from_first in Hin as [_ H].
  - intros; rewrite parameters_parse; apply dedupe_from_NoDup.
Qed.

Lemma parameters_first_kept_witness :
  exists l1 l2,
    traversal_parameters (VString "{{a}}-{{a:def}}")
    = (l1 ++ {| key := "a"; defaultValue := None |} :: l2)%list
    /\ ~ In "a" (map key l1).
Proof.
  exact (proj1 (proj2 parameters_traversal_order_first_kept) Packages.env
           (VString "{{a}}-{{a:def}}") false {| key := "a"; defaultValue := None |}
           (or_introl eq_refl)).
Defined.

(** C8, as amended.  With two or more matches, a step whose value is a
    scalar replaces only the first occurrence of the matched text in the
    accumulator; the fold runs one step for each match, so identical
    placeholders are filled one after the other and all are resolved: in
    every string in which a placeholder stands twice or more, when every
    placeholder resolves to a boolean, number or string whose text holds no
    opening brace and no dollar, the render is the string with every
    placeholder replaced by the text of its value, and holds no placeholder
    any more.  For a string [x] without brace or dollar as the value of [a],
    ["{{a}} and {{a}}"] renders to [x], [ and ], [x]. *)
Theorem repeated_placeholder_filled_in_turn :
  (forall (E : Env) (e : bool) (n : nat) (ctx : value) (s m : string) (v : value)
          (text : string),
      n <> 1 -> resolve e ctx m = Ok v -> scalar v = true -> ToString v = Ok text ->
      step e n ctx (VString s) (m, Parameter' m) = Ok (VString (replace m text s)))
  /\ (forall (s m text : string) (i : nat),
      indexOf m s = Some i -> char_free "$" text = true ->
      replace m text s = (take i s ++ text ++ drop (i + String.length m) s)%string)
  /\ (forall (E : Env) (s : string) (e : bool) (ctx : value) (txt : string -> string)
             (m : string) (l1 l2 l3 : list string),
      Regex.str_match s = (l1 ++ m :: l2 ++ m :: l3)%list ->
      (forall m', In m' (Regex.str_match s) ->
         exists v, resolve e (context_or_empty ctx) m' = Ok v /\ scalar v = true
                   /\ ToString v = Ok (txt m')
                   /\ char_free "{" (txt m') = true
                   /\ char_free "$" (txt m') = true) ->
      fn (parseString s e) ctx = Ok (VString (substitute txt s))
      /\ Regex.test (substitute txt s) = false)
  /\ (forall (E : Env) (e : bool) (ctx : value) (x : string),
      get (context_or_empty ctx) "a" = VString x ->
      char_free "{" x = true -> char_free "$" x = true ->
      fn (parseString "{{a}} and {{a}}" e) ctx = Ok (VString (x ++ " and " ++ x)))
  /\ Packages.render (VString "{{a}} and {{a}}") false (VObject [("a", VString "X")])
     = Ok (VString "X and X").
Proof.
  assert (Hstep : forall (E : Env) e n ctx s m v text,
             n <> 1 -> resolve e ctx m = Ok v -> scalar v = true -> ToString v = Ok text ->
             step e n ctx (VString s) (m, Parameter' m) = Ok (VString (replace m text s))).
  { intros E e n ctx s m v text Hn Hv Hs Ht.
    rewrite step_resolve, Hv; cbn [bind].
    rewrite splice_replace; trivial; [|intros; contradiction].
    cbn [string_method]; now apply String_replace_scalar. }
  assert (Hall : forall (E : Env) (s : string) (e : bool) (ctx : value)
                        (txt : string -> string) (m : string) (l1 l2 l3 : list string),
             Regex.str_match s = (l1 ++ m :: l2 ++ m :: l3)%list ->
             (forall m', In m' (Regex.str_match s) ->
                exists v, resolve e (context_or_empty ctx) m' = Ok v /\ scalar v = true
                          /\ ToString v = Ok (txt m')
                          /\ char_free "{" (txt m') = true
                          /\ char_free "$" (txt m') = true) ->
             fn (parseString s e) ctx = Ok (VString (substitute txt s))
             /\ Regex.test (substitute txt s) = false).
  { intros E s e ctx txt m l1 l2 l3 Hms Hval.
    assert (Hlen : 2 <= List.length (Regex.str_match s)).
    { rewrite Hms, length_app; cbn [List.length]; rewrite length_app; cbn [List.length]; lia. }
    split.
    - apply (FillFacts.render_substitute s e ctx txt True); [lia | trivial |].
      intros m' Hin; destruct (Hval m' Hin) as (v & Hr & Hs & Ht & Hb & Hd).
      exists v; repeat split; trivial.
    - apply FillFacts.substitute_no_match.
      intros m' Hin; destruct (Hval m' Hin) as (v & _ & _ & _ & Hb & _); exact Hb. }
  split; [exact Hstep|]. split; [intros; now apply replace_at|].
  split; [exact Hall|]. split; [|reflexivity].
  intros E e ctx x Hx Hb Hd.
  assert (Hr : resolve e (context_or_empty ctx) "{{a}}" = Ok (VString x)).
  { unfold resolve, lookup.
    change (key (Parameter' "{{a}}")) with "a"; now rewrite Hx. }
  destruct (Hall E "{{a}} and {{a}}" e ctx (fun _ => x) "{{a}}" [] [] [] eq_refl) as [H _].
  { intros m' Hin; exists (VString x).
    assert (Hm' : m' = "{{a}}") by (destruct Hin as [<- | [<- | []]]; reflexivity).
    subst m'; repeat split; trivial. }
  change (substitute (fun _ => x) "{{a}} and {{a}}")
    with (x ++ " and " ++ x ++ "")%string in H.
  now rewrite append_empty_r in H.
Qed.

Lemma repeated_placeholder_witness :
  fn (@parseString Packages.env "{{a}} and {{a}}" false) (VObject [("a", VString "yes")])
  = Ok (VString "yes and yes")
  /\ Regex.test "yes and yes" = false.
Proof.
  apply (proj1 (proj2 (proj2 repeated_placeholder_filled_in_turn)) Packages.env
           "{{a}} and {{a}}" false (VObject [("a", VString "yes")]) (fun _ => "yes")
           "{{a}}" [] [] [] eq_refl).
  intros m' Hin; exists (VString "yes").
  assert (Hm' : m' = "{{a}}") by (destruct Hin as [<- | [<- | []]]; reflexivity).
  subst m'; repeat split; reflexivity.
Defined.

(** C8, as stated, fails: with the string [X] for [a], both placeholders of
    ["{{a}} and {{a}}"] are filled, and nothing of the placeholder text is
    left in the result. *)
Lemma repeated_placeholder_fully_resolved :
  Regex.str_match "{{a}} and {{a}}" = ["{{a}}"; "{{a}}"]
  /\ Packages.render (VString "{{a}} and {{a}}") false (VObject [("a", VString "X")])
     = Ok (VString "X and X")
  /\ indexOf "{{a}}" "X and X" = None.
Proof. repeat split; reflexivity. Qed.

(** C9.  A resolved value that is a function is called and its result is the
    value the step goes on with; when the call throws, the error leaves the
    render of the string, whatever matches follow, and then the render of
    every array and object around it; the template still renders other
    contexts afterwards. *)
Theorem callable_invoked_throw_propagates :
  (forall (E : Env) (e : bool) (ctx : value) (p : Parameter_t) (r : value),
      lookup e ctx p = VFunction (Some r) ->
      forall n acc m, step e n ctx acc (m, p) = splice n acc m r)
  /\ (forall (E : Env) (str : string) (e : bool) (ctx : value) (pre : list string)
             (m : string) (post : list string) (acc : value),
      Regex.str_match str = (pre ++ m :: post)%list ->
      fold_matches e (List.length (Regex.str_match str)) (context_or_empty ctx) pre
        (VString str) = Ok acc ->
      lookup e (context_or_empty ctx) (Parameter' m) = VFunction None ->
      fn (parseString str e) ctx = Throw Thrown)
  /\ (forall (E : Env) (ts1 : list Template_t) (t : Template_t) (ts2 : list Template_t)
             (ctx v : value) (err : error),
      fn (arrayTemplate ts1) ctx = Ok v -> fn t ctx = Throw err ->
      fn (arrayTemplate (ts1 ++ t :: ts2)%list) ctx = Throw err)
  /\ (forall (E : Env) (cs1 : list (Template_t * Template_t)) (kt vt : Template_t)
             (cs2 : list (Template_t * Template_t)) (ctx v : value) (err : error),
      fn (objectTemplate cs1) ctx = Ok v ->
      fn kt ctx = Throw err \/ (exists k, fn kt ctx = Ok k /\ fn vt ctx = Throw err) ->
      fn (objectTemplate (cs1 ++ (kt, vt) :: cs2)%list) ctx = Throw err)
  /\ (let t := @parse Packages.env (VArray [VString "{{f}}!"; VString "{{g}}"]) false in
      fn t (VObject [("f", VFunction None); ("g", VNumber 1)]) = Throw Thrown
      /\ fn t (VObject [("f", VFunction (Some (VNumber 3))); ("g", VNumber 1)])
         = Ok (VArray [VString "3!"; VNumber 1])).
Proof.
  split; [|split; [|split; [|split; [|split; reflexivity]]]].
  3: intros E; apply arrayTemplate_throw.
  3: intros E; apply objectTemplate_throw.
  - intros E e ctx p r Hl n acc m.
    unfold step; cbn [snd fst]; now rewrite Hl.
  - intros E str e ctx pre m post acc Hm Hpre Hl.
    rewrite parseString_fn.
    set (n := List.length (Regex.str_match str)) in *.
    rewrite Hm, fold_matches_app, Hpre; cbn [bind].
    rewrite fold_matches_cons, step_resolve.
    unfold resolve; rewrite Hl; reflexivity.
Qed.

Lemma callable_throw_witness :
  fn (@parseString Packages.env "a {{f}} b {{g}}" false) (VObject [("f", VFunction None)])
  = Throw Thrown.
Proof.
  exact (proj1 (proj2 callable_invoked_throw_propagates) Packages.env "a {{f}} b {{g}}" false
           (VObject [("f", VFunction None)]) [] "{{f}}" ["{{g}}"] (VString "a {{f}} b {{g}}")
           eq_refl eq_refl eq_refl).
Defined.

(** C10.  In a string with two or more placeholders, when an earlier one
    resolves to [undefined] or [null] the accumulator becomes [null]; when a
    later one then resolves to a string, a number or a boolean (those between
    them, if any, resolving to [null] or [undefined] too), [replace] is
    called on [null] and the render throws a [TypeError]:
    [parse("{{a}} {{b}}")({b: 5})] throws. *)
Theorem null_accumulator_then_scalar_throws :
  (forall (E : Env) (str : string) (e : bool) (ctx : value) (pre : list string)
          (m1 : string) (mid : list string) (m2 : string) (post : list string)
          (acc v1 v2 : value),
      Regex.str_match str = (pre ++ m1 :: mid ++ m2 :: post)%list ->
      fold_matches e (List.length (Regex.str_match str)) (context_or_empty ctx) pre
        (VString str) = Ok acc ->
      resolve e (context_or_empty ctx) m1 = Ok v1 -> nullish v1 = true ->
      Forall (fun m => exists v, resolve e (context_or_empty ctx) m = Ok v
                                 /\ nullish v = true) mid ->
      resolve e (context_or_empty ctx) m2 = Ok v2 -> scalar v2 = true ->
      fn (parseString str e) ctx = Throw TypeError)
  /\ Packages.render (VString "{{a}} {{b}}") false (VObject [("b", VNumber 5)])
     = Throw TypeError.
Proof.
  split; [|reflexivity].
  intros E str e ctx pre m1 mid m2 post acc v1 v2 Hm Hpre H1 Hn1 Hmid H2 Hs2.
  rewrite parseString_fn.
  assert (Hlen : List.length (Regex.str_match str) <> 1).
  { rewrite Hm, length_app; cbn [List.length]; rewrite length_app; cbn [List.length]; lia. }
  set (n := List.length (Regex.str_match str)) in *.
  rewrite Hm, fold_matches_app, Hpre; cbn [bind].
  rewrite fold_matches_cons, step_resolve, H1; cbn [bind].
  rewrite (splice_nullish _ _ _ _ Hn1); cbn [bind].
  rewrite fold_matches_app, (fold_matches_nullish _ _ _ _ Hmid); cbn [bind].
  rewrite fold_matches_cons, step_resolve, H2; cbn [bind].
  rewrite splice_replace; trivial.
  intros Hn; contradiction.
Qed.

Lemma null_accumulator_witness :
  fn (@parseString Packages.env "{{a}} {{b}}" false) (VObject [("b", VNumber 5)])
  = Throw TypeError.
Proof.
  exact (proj1 null_accumulator_then_scalar_throws Packages.env "{{a}} {{b}}" false
           (VObject [("b", VNumber 5)]) [] "{{a}}" [] "{{b}}" [] (VString "{{a}} {{b}}")
           VUndefined (VNumber 5) eq_refl eq_refl eq_refl eq_refl (Forall_nil _)
           eq_refl eq_refl).
Defined.

(** * Further properties *)

(** A value that holds no placeholder in any string leaf or object key, whose
    objects list their keys as JavaScript objects do and have no key
    [__proto__], compiles to a template with no parameters that renders, in
    every context, to the value itself: strings as they are, objects and
    arrays rebuilt with the same keys and elements in the same order, every
    other value unchanged. *)
Theorem placeholder_free_renders_to_itself :
  forall (E : Env) (v : value) (e : bool),
    placeholder_free v = true -> well_formed v = true -> proto_free v = true ->
    parameters (parse v e) = [] /\ forall ctx : value, fn (parse v e) ctx = Ok v.
Proof. intros E v e; apply parse_placeholder_free. Qed.

Lemma placeholder_free_witness :
  parameters (@parse Packages.env
                (VObject [("0", VArray [VNull; VString "{ {a} }"]); ("10", VDate 0);
                          ("name", VObject [("b", VBool true); ("a", VNumber (-3))])]) true)
  = []
  /\ forall ctx : value,
      fn (@parse Packages.env
            (VObject [("0", VArray [VNull; VString "{ {a} }"]); ("10", VDate 0);
                      ("name", VObject [("b", VBool true); ("a", VNumber (-3))])]) true) ctx
      = Ok (VObject [("0", VArray [VNull; VString "{ {a} }"]); ("10", VDate 0);
                     ("name", VObject [("b", VBool true); ("a", VNumber (-3))])]).
Proof.
  exact (placeholder_free_renders_to_itself Packages.env
           (VObject [("0", VArray [VNull; VString "{ {a} }"]); ("10", VDate 0);
                     ("name", VObject [("b", VBool true); ("a", VNumber (-3))])])
           true eq_refl eq_refl eq_refl).
Defined.

(** The dispatcher: [parse] switches on [type(value)]; a string goes to
    [parseString], a plain object to [parseObject], an array to
    [parseArray], and every other value ([null], [undefined], booleans,
    numbers, dates, functions) compiles to a constant template without
    parameters. *)
Theorem parse_dispatches_on_type :
  forall (E : Env) (v : value) (e : bool),
    match type v with
    | TTypeof TyString => exists s, v = VString s /\ parse v e = parseString s e
    | TTypeof TyObject => exists props, v = VObject props /\ parse v e = parseObject props e
    | TArray => exists xs, v = VArray xs /\ parse v e = parseArray xs e
    | _ => parameters (parse v e) = [] /\ forall ctx : value, fn (parse v e) ctx = Ok v
    end.
Proof.
  intros E [| | b | n | s | t | xs | props | body] e; cbn [type typeof];
    try (split; reflexivity); eexists; split; reflexivity.
Qed.

(** Every match of the tokenizer is a placeholder: it starts with two
    opening braces, ends with two closing braces and has at least five
    characters, so that [Parameter] strips exactly the delimiters; and the
    test of [parseString] succeeds exactly when there is a match. *)
Theorem matches_are_placeholders :
  forall (s m : string),
    (In m (Regex.str_match s) ->
     startsWith "{{" m = true /\ endsWith "}}" m = true /\ 5 <= String.length m)
    /\ (Regex.test s = true <-> Regex.str_match s <> []).
Proof.
  intros s m; split.
  - intros H; apply RegexFacts.scan_from_match in H as (s' & n & Hn & ->).
    now apply RegexFacts.match_at_shape.
  - split; [apply RegexFacts.test_true_some_match|].
    intros H; destruct (Regex.test s) eqn:Ht; trivial.
    now apply RegexFacts.test_false_no_match in Ht.
Qed.

Lemma matches_are_placeholders_witness :
  startsWith "{{" "{{ a.b : 1 }}" = true /\ endsWith "}}" "{{ a.b : 1 }}" = true
  /\ 5 <= String.length "{{ a.b : 1 }}".
Proof.
  exact (proj1 (matches_are_placeholders "x {{ a.b : 1 }} y" "{{ a.b : 1 }}")
           (or_introl eq_refl)).
Defined.

(** Keys and values of an object are both templates, and arrays render
    element by element: [parse({"{{k}}": "{{v}}"})({k: "id", v: 42})] is
    [{id: 42}], and [parse([{a: "{{x}}"}, "{{y}}"])({x: 1, y: 2})] is
    [[{a: 1}, 2]] with the parameters [x] and [y] in that order. *)
Theorem structured_templates_render :
  Packages.render (VObject [("{{k}}", VString "{{v}}")]) false
    (VObject [("k", VString "id"); ("v", VNumber 42)])
  = Ok (VObject [("id", VNumber 42)])
  /\ Packages.render (VArray [VObject [("a", VString "{{x}}")]; VString "{{y}}"]) false
       (VObject [("x", VNumber 1); ("y", VNumber 2)])
     = Ok (VArray [VObject [("a", VNumber 1)]; VNumber 2])
  /\ Packages.parameters_of (VArray [VObject [("a", VString "{{x}}")]; VString "{{y}}"]) false
     = [{| key := "x"; defaultValue := None |}; {| key := "y"; defaultValue := None |}].
Proof. repeat split; reflexivity. Qed.

(** When two keys render to the same name the later value wins: the
    assignment to a property the object already owns replaces its value
    where it stands and changes no key. *)
Theorem key_collision_last_wins :
  (forall (props : list (string * value)) (k : string) (v old : value),
      own k props = Some old ->
      Props.set props k v = Ok (Props.update k v props)
      /\ own k (Props.update k v props) = Some v
      /\ map fst (Props.update k v props) = map fst props)
  /\ Packages.render (VObject [("{{a}}", VNumber 1); ("x", VNull); ("{{b}}", VNumber 2)]) false
       (VObject [("a", VString "k"); ("b", VString "k")])
     = Ok (VObject [("k", VNumber 2); ("x", VNull)]).
Proof.
  split; [|reflexivity].
  intros props k v old Hown; unfold Props.set; rewrite Hown.
  split; [reflexivity|].
  induction props as [|[k' v'] props IH]; [discriminate|].
  cbn [own Props.update] in *.
  destruct (String.eqb_spec k k') as [->|Hne].
  - cbn [own map fst]; now rewrite String.eqb_refl.
  - cbn [own map fst]. apply String.eqb_neq in Hne; rewrite Hne.
    destruct (IH Hown) as [H1 H2]; split; [exact H1 | now rewrite H2].
Qed.

Lemma key_collision_witness :
  Props.set [("k", VNumber 1)] "k" (VNumber 2) = Ok [("k", VNumber 2)].
Proof.
  exact (proj1 (proj1 key_collision_last_wins [("k", VNumber 1)] "k" (VNumber 2) (VNumber 1)
                  eq_refl)).
Defined.

(** An array template renders element by element: the result, when there is
    one, is an array of the same length whose elements are the renders of
    the elements of the template, in order. *)
Theorem array_renders_elementwise :
  forall (E : Env) (xs : list value) (e : bool) (ctx v : value),
    fn (parse (VArray xs) e) ctx = Ok v ->
    exists vs, v = VArray vs
               /\ List.length vs = List.length xs
               /\ Forall2 (fun x y => fn (parse x e) ctx = Ok y) xs vs.
Proof.
  intros E xs e ctx v H.
  rewrite parse_array in H; apply arrayTemplate_inv in H as (vs & -> & Hvs).
  apply map_templates_Forall2 in Hvs.
  exists vs; split; [reflexivity|].
  assert (HF : Forall2 (fun x y => fn (parse x e) ctx = Ok y) xs vs).
  { revert vs Hvs; induction xs as [|x xs IH]; intros vs Hvs; inversion Hvs; subst;
      constructor; auto. }
  split; [symmetry; eapply Forall2_length, HF | exact HF].
Qed.

Lemma array_renders_elementwise_witness :
  exists vs, VArray [VNumber 5; VString "5!"] = VArray vs
             /\ List.length vs = 2
             /\ Forall2 (fun x y => fn (@parse Packages.env x false)
                                       (VObject [("a", VNumber 5)]) = Ok y)
                        [VString "{{a}}"; VString "{{a}}!"] vs.
Proof.
  exact (array_renders_elementwise Packages.env [VString "{{a}}"; VString "{{a}}!"] false
           (VObject [("a", VNumber 5)]) (VArray [VNumber 5; VString "5!"]) eq_refl).
Defined.

(** A render reads the context through [context || {}]: a context that is
    not truthy ([undefined], [null], [false], 0, the empty string) renders
    as the empty object does, for every template. *)
Theorem falsy_context_is_empty_object :
  forall (E : Env) (v : value) (e : bool) (ctx : value),
    truthy ctx = false -> fn (parse v e) ctx = fn (parse v e) (VObject []).
Proof.
  intros E v e ctx Hc; apply render_ext; intros p _.
  unfold context_or_empty; now rewrite Hc.
Qed.

Lemma falsy_context_witness :
  fn (@parse Packages.env (VArray [VString "{{a:1}}"]) false) (VNumber 0)
  = fn (@parse Packages.env (VArray [VString "{{a:1}}"]) false) (VObject []).
Proof.
  exact (falsy_context_is_empty_object Packages.env (VArray [VString "{{a:1}}"]) false
           (VNumber 0) eq_refl).
Defined.

(** The [parameters] of a template name everything its render reads: with
    [evalDefaults] off, two contexts in which [objectPath.get] answers the
    same at the key of every parameter render alike. *)
Theorem render_reads_only_the_parameters :
  forall (E : Env) (v : value) (c1 c2 : value),
    (forall q, In q (parameters (parse v false)) ->
               get (context_or_empty c1) (key q) = get (context_or_empty c2) (key q)) ->
    fn (parse v false) c1 = fn (parse v false) c2.
Proof.
  intros E v c1 c2 H; apply render_ext; intros p Hp.
  destruct (parameters_cover v false p Hp) as (q & Hq & Hk).
  unfold lookup; now rewrite <- Hk, (H q Hq).
Qed.

Lemma render_reads_only_the_parameters_witness :
  fn (@parse Packages.env (VObject [("k", VString "{{a}} {{a:x}}")]) false)
     (VObject [("a", VNumber 1); ("b", VNumber 2)])
  = fn (@parse Packages.env (VObject [("k", VString "{{a}} {{a:x}}")]) false)
       (VObject [("z", VNull); ("a", VNumber 1)]).
Proof.
  apply (render_reads_only_the_parameters Packages.env
           (VObject [("k", VString "{{a}} {{a:x}}")])).
  intros q [<- | []]; reflexivity.
Defined.

(** [evalDefaults] changes nothing of the [parameters], and nothing of a
    render in which no parameter's path is missing: the evaluator is only
    called for a path that answers [undefined] or [null]. *)
Theorem evalDefaults_only_for_missing_paths :
  forall (E : Env) (v : value) (ctx : value),
    parameters (parse v true) = parameters (parse v false)
    /\ ((forall q, In q (parameters (parse v false)) ->
                   nullish (get (context_or_empty ctx) (key q)) = false) ->
        fn (parse v true) ctx = fn (parse v false) ctx).
Proof.
  intros E v ctx; split; [now rewrite !parameters_parse|].
  intros H; apply render_ext; intros p Hp.
  destruct (parameters_cover v false p Hp) as (q & Hq & Hk).
  unfold lookup; rewrite <- Hk, (H q Hq); reflexivity.
Qed.

Lemma evalDefaults_witness :
  fn (@parse Packages.env (VString "{{a:1+1}}") true) (VObject [("a", VNumber 7)])
  = fn (@parse Packages.env (VString "{{a:1+1}}") false) (VObject [("a", VNumber 7)]).
Proof.
  apply (proj2 (evalDefaults_only_for_missing_paths Packages.env (VString "{{a:1+1}}")
                  (VObject [("a", VNumber 7)]))).
  intros q [<- | []]; reflexivity.
Defined.

(** A string with one placeholder whose path answers [undefined] or [null]
    and which has no default renders, with [evalDefaults] off, to [null]
    whatever text stands around the placeholder. *)
Theorem missing_value_nulls_the_string :
  forall (E : Env) (str m : string) (ctx : value),
    Regex.str_match str = [m] ->
    defaultValue (Parameter' m) = None ->
    nullish (get (context_or_empty ctx) (key (Parameter' m))) = true ->
    fn (parseString str false) ctx = Ok VNull.
Proof.
  intros E str m ctx Hm Hd Hn.
  rewrite parseString_fn, Hm, fold_matches_cons, step_resolve.
  unfold resolve, lookup; rewrite Hn, Hd; reflexivity.
Qed.

Lemma missing_value_witness :
  fn (@parseString Packages.env "Hello {{name}}, welcome" false) (VObject []) = Ok VNull.
Proof.
  exact (missing_value_nulls_the_string Packages.env "Hello {{name}}, welcome" "{{name}}"
           (VObject []) eq_refl eq_refl eq_refl).
Defined.

(** [Parameter] inverts the placeholder syntax: a trimmed key without colon,
    wrapped in the delimiters, gives the key and no default; with a colon and
    a default without trailing white space it gives the key and the default.
    For every match the key holds no colon, and key, colon and default put
    together are the trimmed text between the delimiters. *)
Theorem Parameter_round_trip :
  (forall k d : string,
      trim k = k -> indexOf ":" k = None -> trimEnd d = d ->
      Parameter' ("{{" ++ k ++ ":" ++ d ++ "}}") = {| key := k; defaultValue := Some d |})
  /\ (forall k : string,
      trim k = k -> indexOf ":" k = None ->
      Parameter' ("{{" ++ k ++ "}}") = {| key := k; defaultValue := None |})
  /\ (forall m : string,
      indexOf ":" (key (Parameter' m)) = None
      /\ trim (substr 2 (String.length m - 4) m)
         = (key (Parameter' m)
            ++ match defaultValue (Parameter' m) with
               | Some d => String ":" d
               | None => ""
               end)%string).
Proof.
  split; [|split].
  - intros k d Hk Hc Hd.
    unfold Parameter'.
    replace ("{{" ++ k ++ ":" ++ d ++ "}}")%string with ("{{" ++ (k ++ String ":" d) ++ "}}")%string
      by (cbn [append]; now rewrite append_assoc).
    rewrite ParameterFacts.inner_of_braces, (ParameterFacts.trim_key_colon_default k d Hk Hd).
    rewrite (indexOf_char_split ":" k d Hc).
    unfold substr, substr_from; cbn [drop]; f_equal.
    + apply ParameterFacts.take_all.
    + now rewrite drop_app.
  - intros k Hk Hc.
    unfold Parameter'.
    rewrite ParameterFacts.inner_of_braces, Hk, Hc; reflexivity.
  - intros m; unfold Parameter'.
    set (inner := trim (substr 2 (String.length m - 4) m)).
    destruct (indexOf ":" inner) as [i|] eqn:Hi; cbn [key defaultValue].
    + destruct (ParameterFacts.indexOf_char_parts ":" inner i Hi) as [Hs Hn].
      unfold substr, substr_from; cbn [drop]; split; [exact Hn | exact Hs].
    + split; [exact Hi | now rewrite append_empty_r].
Qed.

Lemma Parameter_round_trip_witness :
  Parameter' ("{{" ++ "user.name" ++ ":" ++ " John Doe" ++ "}}")
  = {| key := "user.name"; defaultValue := Some " John Doe" |}.
Proof.
  exact (proj1 Parameter_round_trip "user.name" " John Doe" eq_refl eq_refl eq_refl).
Defined.

(** A string without an opening brace is never a template: it has no match,
    no parameter, and renders to itself in every context. *)
Theorem brace_free_string_is_constant :
  forall (E : Env) (s : string) (e : bool),
    char_free "{" s = true ->
    Regex.str_match s = []
    /\ parameters (parseString s e) = []
    /\ forall ctx : value, fn (parseString s e) ctx = Ok (VString s).
Proof.
  intros E s e H; apply ParameterFacts.brace_free_no_match in H.
  split; [now apply RegexFacts.test_false_no_match|].
  now apply parseString_constant.
Qed.

Lemma brace_free_witness :
  Regex.str_match "a: b}} c" = []
  /\ parameters (@parseString Packages.env "a: b}} c" true) = []
  /\ forall ctx : value, fn (@parseString Packages.env "a: b}} c" true) ctx
                         = Ok (VString "a: b}} c").
Proof. exact (brace_free_string_is_constant Packages.env "a: b}} c" true eq_refl). Defined.



(** Under the name a key renders to, the rendered object holds the value of
    the last child whose key renders to that name ([__proto__] apart). *)
Theorem rendered_key_holds_last_value :
  forall (E : Env) (cs1 : list (Template_t * Template_t)) (kt vt : Template_t)
         (cs2 : list (Template_t * Template_t)) (ctx : value)
         (ps : list (string * value)) (k v : value) (name : string),
    fn (objectTemplate (cs1 ++ (kt, vt) :: cs2)%list) ctx = Ok (VObject ps) ->
    fn kt ctx = Ok k -> ToString k = Ok name -> name <> "__proto__" ->
    fn vt ctx = Ok v ->
    Forall (fun c => forall k' name', fn (fst c) ctx = Ok k' -> ToString k' = Ok name' ->
                                      name' <> name) cs2 ->
    own name ps = Some v.
Proof.
  intros E cs1 kt vt cs2 ctx ps k v name H Hk Hname Hproto Hv Hrest.
  apply objectTemplate_inv in H as (ps' & [= <-] & Hr).
  rewrite reduce_app in Hr.
  destruct (reduce (assign_child ctx) cs1 []) as [a1| |]; cbn [bind reduce] in Hr;
    try discriminate.
  destruct (assign_child ctx a1 (kt, vt)) as [a2| |] eqn:Hc; cbn [bind] in Hr;
    try discriminate.
  rewrite (reduce_assign_keeps _ _ _ _ _ Hr Hrest).
  unfold assign_child in Hc; cbn [fst snd] in Hc.
  rewrite Hk, Hv in Hc; cbn [bind] in Hc; rewrite Hname in Hc; cbn [bind] in Hc.
  now apply (proj1 (PropsFacts.set_then_own _ _ _ _ Hc)).
Qed.

Lemma rendered_key_witness :
  own "k" [("k", VNumber 2); ("x", VNull)] = Some (VNumber 2).
Proof.
  refine (rendered_key_holds_last_value Packages.env
            [(@parseString Packages.env "{{a}}" false, @parse Packages.env (VNumber 1) false)]
            (@parseString Packages.env "{{b}}" false) (@parse Packages.env (VNumber 2) false)
            [(@parseString Packages.env "x" false, @parse Packages.env VNull false)]
            (VObject [("a", VString "k"); ("b", VString "k")])
            [("k", VNumber 2); ("x", VNull)] (VString "k") (VNumber 2) "k"
            eq_refl eq_refl eq_refl _ eq_refl _).
  - discriminate.
  - constructor; [|constructor].
    intros k' name' Hk' Hn'; cbn in Hk'; injection Hk' as <-; cbn in Hn'.
    injection Hn' as <-; discriminate.
Defined.

(** An object template whose keys hold no placeholder (and are the keys of a
    JavaScript object, none of them [__proto__]) renders key by key: the
    result has the keys of the template, in their order, each with the
    render of its value. *)
Theorem static_keys_render_valuewise :
  forall (E : Env) (props : list (string * value)) (e : bool) (ctx : value)
         (vs : list value),
    Props.wf_keys (map fst props) = true ->
    Forall (fun kv => Regex.test (fst kv) = false
                      /\ String.eqb (fst kv) "__proto__" = false) props ->
    Forall2 (fun kv w => fn (parse (snd kv) e) ctx = Ok w) props vs ->
    fn (parse (VObject props) e) ctx = Ok (VObject (combine (map fst props) vs)).
Proof.
  intros E props e ctx vs Hwf Hkeys Hvals.
  rewrite parse_object; cbn [objectTemplate Template fn].
  set (mk := fun kv : string * value => (parseString (fst kv) e, parse (snd kv) e)).
  enough (Hgen : forall acc,
             Props.wf_keys (map fst (acc ++ props)%list) = true ->
             reduce (assign_child ctx) (map mk props) acc
             = Ok (acc ++ combine (map fst props) vs)%list)
    by now rewrite (Hgen [] Hwf).
  clear Hwf.
  induction Hvals as [|[k x] w props vs Hx _ IH]; intros acc Hacc; cbn [map reduce combine].
  - now rewrite app_nil_r.
  - inversion Hkeys as [|? ? [Hk Hp] Hrest]; subst; cbn [fst snd] in *.
    unfold assign_child at 1; subst mk; cbn [fst snd].
    rewrite (proj2 (parseString_constant _ e Hk)), Hx; cbn [bind ToString prim_to_string].
    rewrite map_app in Hacc; cbn [map fst] in Hacc.
    destruct (wf_keys_last _ _ _ Hacc) as [Hbefore _].
    rewrite (set_last _ _ _ Hbefore Hp); cbn [bind].
    rewrite (IH Hrest), <- app_assoc; [reflexivity|].
    now rewrite <- app_assoc, map_app.
Qed.

Lemma static_keys_witness :
  fn (@parse Packages.env (VObject [("2", VString "{{a}}"); ("name", VString "x{{b}}")]) false)
     (VObject [("a", VArray []); ("b", VNumber 1)])
  = Ok (VObject [("2", VArray []); ("name", VString "x1")]).
Proof.
  refine (static_keys_render_valuewise Packages.env
            [("2", VString "{{a}}"); ("name", VString "x{{b}}")] false
            (VObject [("a", VArray []); ("b", VNumber 1)]) [VArray []; VString "x1"]
            eq_refl _ _).
  - repeat constructor.
  - repeat constructor.
Defined.

(** The matches of the tokenizer lie in the text in the order of the list,
    one after the other without overlap: the text is what stands before the
    first match, then each match followed by the text after it, and none of
    these texts between the matches holds a placeholder. *)
Theorem matches_partition_the_string :
  forall s : string,
    exists (first : string) (rest : list (string * string)),
      map fst rest = Regex.str_match s
      /\ weave first rest = s
      /\ Regex.test first = false
      /\ Forall (fun mg => Regex.test (snd mg) = false) rest.
Proof. intros s; exact (ScanFacts.scan_partition (String.length s) s (le_n _)). Qed.

(** The fold of a string that is not one whole placeholder, step by step:
    when the first [k] matches resolve to booleans, numbers or strings whose
    texts hold neither an opening brace nor a dollar, the accumulator after
    [k] steps is the string with exactly its first [k] placeholders replaced
    by the texts of their values, every other character as it was; after the
    last step the render is the string with every placeholder replaced. *)
Theorem embedded_placeholders_are_filled :
  forall (E : Env) (s : string) (e : bool) (ctx : value) (txt : string -> string) (k : nat),
    (List.length (Regex.str_match s) = 1 ->
     startsWith "{{" s && endsWith "}}" s = false) ->
    (forall m, In m (firstn k (Regex.str_match s)) ->
       exists v, resolve e (context_or_empty ctx) m = Ok v /\ scalar v = true
                 /\ ToString v = Ok (txt m)
                 /\ char_free "{" (txt m) = true
                 /\ char_free "$" (txt m) = true) ->
    fold_matches e (List.length (Regex.str_match s)) (context_or_empty ctx)
      (firstn k (Regex.str_match s)) (VString s)
    = Ok (VString (substitute_upto txt k 0 s))
    /\ (List.length (Regex.str_match s) <= k ->
        fn (parseString s e) ctx = Ok (VString (substitute txt s))).
Proof.
  intros E s e ctx txt k Hone Hval.
  assert (Hfold : fold_matches e (List.length (Regex.str_match s)) (context_or_empty ctx)
                    (firstn k (Regex.str_match s)) (VString s)
                  = Ok (VString (substitute_upto txt k 0 s))).
  { apply (FillFacts.fold_matches_upto s e _ txt True); trivial.
    intros m Hin; destruct (Hval m Hin) as (v & Hr & Hs & Ht & Hb & Hd).
    exists v; repeat split; trivial. }
  split; [exact Hfold|].
  intros Hk.
  rewrite parseString_fn, <- (FillFacts.substitute_upto_all txt k s Hk), <- Hfold.
  now rewrite firstn_all2.
Qed.

Lemma embedded_placeholders_witness :
  fold_matches (E := Packages.env) false 3
    (VObject [("greeting", VString "Hello"); ("name", VString "Ada")])
    ["{{greeting}}"; "{{name}}"] (VString "{{greeting}}, {{name}}! You are {{age}}.")
  = Ok (VString "Hello, Ada! You are {{age}}.").
Proof.
  apply (proj1 (embedded_placeholders_are_filled Packages.env
                  "{{greeting}}, {{name}}! You are {{age}}." false
                  (VObject [("greeting", VString "Hello"); ("name", VString "Ada")])
                  (fun m => if String.eqb m "{{greeting}}" then "Hello" else "Ada") 2
                  ltac:(intros H; vm_compute in H; discriminate)
                  ltac:(intros m Hm; vm_compute in Hm;
                        destruct Hm as [<- | [<- | []]];
                        eexists; repeat split; reflexivity))).
Defined.
